(** * The page-level activities manager of web-activities (src/activities.js)

    A shallow embedding of the [Activities] class: its two tables
    ([requestHandlers_], [resultBuffer_]), the fragment captured by the
    constructor, the methods [openIframe], [open], [onResult] and
    [connectHost], and the private [discoverResult_], [consumeResult_] and
    [consumeResultAll_].

    Modelling conventions.
    - JS objects that have an identity (ports, callbacks, windows) carry a
      reference number; [new] takes the next free reference of the page.
    - The two tables are plain JS objects, made by [{}], used as maps from
      [requestId] to a value.  A read [table[requestId]] goes through the
      prototype chain: under a name that every object inherits from
      [Object.prototype] ('constructor', 'toString', ...) it finds the
      inherited member.  [Table] and [read] below embed this, and the
      methods throw where the source does.
    - The manager holds a reference to the window, not a copy: the window
      lives in the state of the page, [World], and the methods read it
      there.  Only [location.hash] is copied, by the constructor.
    - [Promise.resolve().then(f)] appends a job to the page's microtask
      queue; the event loop runs the queue first-in first-out.  A job that
      throws rejects the promise made by [then], which nobody observes.
    - A callback is given by its identity and by how a call of it completes.
      What a callback does to the manager while it runs is the same as an
      event of the page that follows the microtask, and the runs of events
      below are arbitrary.
    - The fulfilment of [port.acceptResult()] and the run of the reaction
      that [open] attached to it are one event of the page, which may come
      at any time.
    - The ports and hosts that the manager constructs are defined in other
      files of the repository; what the manager needs of them is taken as a
      section variable, or modelled from the specification where a statement
      needs their behaviour. *)

From stdpp Require Import gmap strings list fin_maps.

(** ** Values and ports *)

(** Structured values passed as [opt_args], [opt_options] and result data. *)
#[warnings="-register-all"] Inductive Value :=
| VNull
| VNum (n : Z)
| VStr (s : string)
| VObj (fields : list (string * Value)).

Inductive ActivityResultCode := OK | CANCELED | FAILED.

(** The record carried by a redirect fragment:
    [{requestId, code, data, origin}]. *)
Record RedirectResponse := {
  resp_requestId : string;
  resp_code : ActivityResultCode;
  resp_data : Value;
  resp_origin : string;
}.

(** What a value handled as a port is.  [ActivityWindowPort] is built by
    [open]; [ActivityWindowRedirectPort] is the synthetic port built from a
    redirect fragment; [ObjectPrototypeMember] is no port at all but the
    member of [Object.prototype] of that name, which a read of the result
    buffer under that name returns. *)
Inductive PortBody :=
| ActivityWindowPort (requestId url openTarget : string)
                     (args options : option Value)
| ActivityWindowRedirectPort (response : RedirectResponse)
| ObjectPrototypeMember (name : string).

(** A port object: its identity and its contents.  The reference numbers
    the objects that the page allocates; a member of [Object.prototype] is
    told by its name. *)
Record Port := {
  port_ref : nat;
  port_body : PortBody;
}.

Definition inherited_member (name : string) : Port :=
  {| port_ref := 0; port_body := ObjectPrototypeMember name |}.

(** How a call of a user function completes. *)
Inductive Completion :=
| Normal
| Throw (error : string).

(** A registered callback, [function(!ActivityPortDef)]. *)
Record Callback := {
  cb_ref : nat;
  cb_body : Port -> Completion;
}.

(** ** The window *)

Record Opener := {
  closed : bool;
}.

(** The part of [Window] that the manager reads: the identity of the window
    and of its [top], its [opener] (absent when null) and [location.hash]. *)
Record Window := {
  win_ref : nat;
  top : nat;
  opener : option Opener;
  location_hash : string;
}.

Definition set_hash (hash : string) (win : Window) : Window :=
  {| win_ref := win_ref win; top := top win; opener := opener win;
     location_hash := hash |}.

(** ** Plain objects used as tables *)

(** The names of the members of [Object.prototype], which every object made
    by [{}] inherits.  All of them are truthy (functions, and the prototype
    itself under ['__proto__']), none is an array. *)
Definition inherited_names : list string :=
  ["constructor"; "hasOwnProperty"; "isPrototypeOf"; "propertyIsEnumerable";
   "toLocaleString"; "toString"; "valueOf"; "__defineGetter__";
   "__defineSetter__"; "__lookupGetter__"; "__lookupSetter__"; "__proto__"].

Definition inherited (name : string) : bool :=
  existsb (String.eqb name) inherited_names.

(** The own properties of a table of the manager.  The manager never assigns
    under an inherited name: each of its assignments (lines 146, 188 and
    219) comes after a read of the same name, which finds the inherited
    member and leads elsewhere.  So a table has no own property under such
    a name; its lookup and its update leave these names out. *)
Record Table (V : Type) := {
  own : gmap string V;
}.
Arguments own {V} t.

Global Instance table_lookup {V : Type} : Lookup string V (Table V) :=
  fun name t => if inherited name then None else own t !! name.

Global Instance table_insert {V : Type} : Insert string V (Table V) :=
  fun name value t =>
    if inherited name then t else {| own := <[name := value]> (own t) |}.

Global Instance table_empty {V : Type} : Empty (Table V) := {| own := ∅ |}.

(** What the JS expression [table[name]] evaluates to: an own property, the
    inherited member of that name, or [undefined]. *)
Inductive Read (V : Type) :=
| Own (value : V)
| FromPrototype (name : string)
| Undefined.
Arguments Own {V} value.
Arguments FromPrototype {V} name.
Arguments Undefined {V}.

Definition read {V : Type} (t : Table V) (name : string) : Read V :=
  if inherited name then FromPrototype name
  else
    match t !! name with
    | Some value => Own value
    | None => Undefined
    end.

(** ** The manager and the page it lives in *)

(** The fields of an [Activities] instance.  [win_] is a reference to the
    page's window, which the page keeps in [World]. *)
Record Activities := {
  fragment_ : string;
  requestHandlers_ : Table (list Callback);
  resultBuffer_ : Table Port;
}.

(** A microtask queued by [consumeResult_]: call [callback(port)]. *)
Record Job := {
  job_callback : Callback;
  job_port : Port;
}.

(** The page: the window, the next free object reference, the manager, the
    reactions that [open] attached to [port.acceptResult()], the microtask
    queue, the calls of callbacks made so far, the rejections nobody
    handled, and the exceptions that the manager's own methods threw at
    their callers. *)
Record World := {
  win : Window;
  next_ref : nat;
  this : Activities;
  awaiting : list (string * Port);
  microtasks : list Job;
  calls : list (Callback * Port);
  unhandled : list string;
  raised : list string;
}.

Definition with_win (f : Window -> Window) (w : World) : World :=
  {| win := f (win w); next_ref := next_ref w; this := this w;
     awaiting := awaiting w; microtasks := microtasks w; calls := calls w;
     unhandled := unhandled w; raised := raised w |}.

Definition alloc (w : World) : World :=
  {| win := win w; next_ref := S (next_ref w); this := this w;
     awaiting := awaiting w; microtasks := microtasks w; calls := calls w;
     unhandled := unhandled w; raised := raised w |}.

Definition with_this (f : Activities -> Activities) (w : World) : World :=
  {| win := win w; next_ref := next_ref w; this := f (this w);
     awaiting := awaiting w; microtasks := microtasks w; calls := calls w;
     unhandled := unhandled w; raised := raised w |}.

Definition with_awaiting (l : list (string * Port)) (w : World) : World :=
  {| win := win w; next_ref := next_ref w; this := this w;
     awaiting := l; microtasks := microtasks w; calls := calls w;
     unhandled := unhandled w; raised := raised w |}.

Definition with_microtasks (q : list Job) (w : World) : World :=
  {| win := win w; next_ref := next_ref w; this := this w;
     awaiting := awaiting w; microtasks := q; calls := calls w;
     unhandled := unhandled w; raised := raised w |}.

Definition called (callback : Callback) (port : Port) (w : World) : World :=
  {| win := win w; next_ref := next_ref w; this := this w;
     awaiting := awaiting w; microtasks := microtasks w;
     calls := calls w ++ [(callback, port)]; unhandled := unhandled w;
     raised := raised w |}.

Definition reject (error : string) (w : World) : World :=
  {| win := win w; next_ref := next_ref w; this := this w;
     awaiting := awaiting w; microtasks := microtasks w; calls := calls w;
     unhandled := unhandled w ++ [error]; raised := raised w |}.

(** A method of the manager throws: nothing else happens in it. *)
Definition raise (error : string) (w : World) : World :=
  {| win := win w; next_ref := next_ref w; this := this w;
     awaiting := awaiting w; microtasks := microtasks w; calls := calls w;
     unhandled := unhandled w; raised := raised w ++ [error] |}.

(** [this.requestHandlers_[requestId] = handlers] *)
Definition set_handlers (requestId : string) (handlers : list Callback)
    (a : Activities) : Activities :=
  {| fragment_ := fragment_ a;
     requestHandlers_ := <[requestId := handlers]> (requestHandlers_ a);
     resultBuffer_ := resultBuffer_ a |}.

(** [this.resultBuffer_[requestId] = port] *)
Definition set_result (requestId : string) (port : Port)
    (a : Activities) : Activities :=
  {| fragment_ := fragment_ a;
     requestHandlers_ := requestHandlers_ a;
     resultBuffer_ := <[requestId := port]> (resultBuffer_ a) |}.

(** [new Activities(win)]: the fragment is read once, here. *)
Definition constructor (win : Window) : Activities :=
  {| fragment_ := location_hash win;
     requestHandlers_ := ∅;
     resultBuffer_ := ∅ |}.

(** A page that has just constructed its manager. *)
Definition boot (win : Window) : World :=
  {| win := win; next_ref := 0; this := constructor win; awaiting := [];
     microtasks := []; calls := []; unhandled := []; raised := [] |}.

(** The job that [consumeResult_(port, callback)] queues, and the call that
    a job makes when it runs. *)
Definition job_of (port : Port) (callback : Callback) : Job :=
  {| job_callback := callback; job_port := port |}.

Definition call_of (j : Job) : Callback * Port :=
  (job_callback j, job_port j).

(** The error that a job's callback throws, if it throws. *)
Definition thrown (j : Job) : option string :=
  match cb_body (job_callback j) (job_port j) with
  | Normal => None
  | Throw error => Some error
  end.

(** The value of [this.resultBuffer_[requestId]], line 183: the port stored
    under the name, the inherited member of that name, or nothing. *)
Definition buffered (requestId : string) (a : Activities) : option Port :=
  match read (resultBuffer_ a) requestId with
  | Own port => Some port
  | FromPrototype name => Some (inherited_member name)
  | Undefined => None
  end.

(** The list of handlers that the table holds for [requestId], read as the
    empty list when the table has no entry. *)
Definition handlers_of (requestId : string) (a : Activities) : list Callback :=
  match requestHandlers_ a !! requestId with
  | Some handlers => handlers
  | None => []
  end.

Section Manager.

(** [discoverRedirectPort(win, fragment, requestId)] of
    activity-window-port.js: the contents of the port it constructs, or
    nothing. *)
Variable discoverRedirectPort : Window -> string -> string -> option PortBody.

(** [discoverResult_(requestId)], lines 182-192.  Whatever the read of the
    buffer finds is truthy and is returned as it is, also the inherited
    member under an inherited name. *)
Definition discoverResult_ (requestId : string) (w : World)
    : option Port * World :=
  match buffered requestId (this w) with
  | Some port => (Some port, w)
  | None =>
      if String.eqb (fragment_ (this w)) EmptyString then (None, w)
      else
        match discoverRedirectPort (win w) (fragment_ (this w)) requestId with
        | Some body =>
            let port := {| port_ref := next_ref w; port_body := body |} in
            (Some port, with_this (set_result requestId port) (alloc w))
        | None => (None, w)
        end
  end.

(** [consumeResult_(port, callback)], lines 199-203: the call is deferred
    to a microtask. *)
Definition consumeResult_ (port : Port) (callback : Callback) (w : World)
    : World :=
  with_microtasks (microtasks w ++ [job_of port callback]) w.

(** [consumeResultAll_(requestId, port)], lines 210-220.  Under an inherited
    name [handlers] is the inherited member, which is truthy and has no
    [forEach]: the call at line 214 throws, before line 219 is reached. *)
Definition consumeResultAll_ (requestId : string) (port : Port) (w : World)
    : World :=
  match read (requestHandlers_ (this w)) requestId with
  | FromPrototype _ =>
      raise "TypeError: handlers.forEach is not a function" w
  | Own handlers =>
      with_this (set_result requestId port)
        (foldl (fun w' handler => consumeResult_ port handler w') w handlers)
  | Undefined => with_this (set_result requestId port) w
  end.

(** The rest of [onResult] once [handlers] is an array: lines 148-154. *)
Definition onResult_push (requestId : string) (callback : Callback)
    (handlers : list Callback) (w : World) : World :=
  let w1 := with_this (set_handlers requestId (handlers ++ [callback])) w in
  match discoverResult_ requestId w1 with
  | (Some availableResult, w2) => consumeResult_ availableResult callback w2
  | (None, w2) => w2
  end.

(** [onResult(requestId, callback)], lines 142-155.  Under an inherited name
    [handlers] is the inherited member, which is truthy, so that line 145 is
    skipped, and has no [push]: the call at line 148 throws. *)
Definition onResult (requestId : string) (callback : Callback) (w : World)
    : World :=
  match read (requestHandlers_ (this w)) requestId with
  | FromPrototype _ => raise "TypeError: handlers.push is not a function" w
  | Own handlers => onResult_push requestId callback handlers w
  | Undefined => onResult_push requestId callback [] w
  end.

(** [open(requestId, url, target, opt_args, opt_options)], lines 100-109.
    The method returns nothing; it leaves a reaction on the promise of
    [port.acceptResult()]. *)
Definition open (requestId url target : string)
    (opt_args opt_options : option Value) (w : World) : World :=
  let port :=
    {| port_ref := next_ref w;
       port_body :=
         ActivityWindowPort requestId url target opt_args opt_options |} in
  let w1 := alloc w in
  with_awaiting (awaiting w1 ++ [(requestId, port)]) w1.

(** Find the reaction that [open] left for the port with reference [ref] and
    take it off the list: a promise is fulfilled once. *)
Fixpoint take_awaiting (ref : nat) (l : list (string * Port))
    : option (string * Port * list (string * Port)) :=
  match l with
  | [] => None
  | (requestId, port) :: l' =>
      if Nat.eqb (port_ref port) ref then Some (requestId, port, l')
      else
        match take_awaiting ref l' with
        | Some (r, p, rest) => Some (r, p, (requestId, port) :: rest)
        | None => None
        end
  end.

(** The promise of [acceptResult()] of the port with reference [ref] is
    fulfilled and the reaction left by [open] runs:
    [() => { this.consumeResultAll_(requestId, port); }].  When
    [consumeResultAll_] throws, the exception ends the reaction. *)
Definition acceptResult_then (ref : nat) (w : World) : World :=
  match take_awaiting ref (awaiting w) with
  | Some (requestId, port, rest) =>
      consumeResultAll_ requestId port (with_awaiting rest w)
  | None => w
  end.

(** One job of the microtask queue, [() => { callback(port); }]: the call is
    made, and an exception ends as an unhandled rejection. *)
Definition run_job (j : Job) (w : World) : World :=
  let w1 := called (job_callback j) (job_port j) w in
  match cb_body (job_callback j) (job_port j) with
  | Normal => w1
  | Throw error => reject error w1
  end.

(** The event loop takes the first job off the queue and runs it. *)
Definition run_microtask (w : World) : World :=
  match microtasks w with
  | [] => w
  | j :: q => run_job j (with_microtasks q w)
  end.

(** The jobs [q], one after the other. *)
Fixpoint run_jobs (q : list Job) (w : World) : World :=
  match q with
  | [] => w
  | j :: q' => run_jobs q' (run_job j w)
  end.

(** Run the microtask queue until it is empty. *)
Definition drain (w : World) : World :=
  Nat.iter (length (microtasks w)) run_microtask w.

(** What happens on the page, one event at a time. *)
Inductive Op :=
| OnResult (requestId : string) (callback : Callback)
| Open (requestId url target : string) (opt_args opt_options : option Value)
| AcceptResult (ref : nat)
| Microtask
| SetHash (hash : string).

Definition step (w : World) (op : Op) : World :=
  match op with
  | OnResult requestId callback => onResult requestId callback w
  | Open requestId url target opt_args opt_options =>
      open requestId url target opt_args opt_options w
  | AcceptResult ref => acceptResult_then ref w
  | Microtask => run_microtask w
  | SetHash hash => with_win (set_hash hash) w
  end.

Definition run (ops : list Op) (w : World) : World := foldl step w ops.

End Manager.

(** Everything that has been called or is queued to be called, in order. *)
Definition history (w : World) : list (Callback * Port) :=
  calls w ++ map call_of (microtasks w).

(** The callback that an event registers for [requestId], if it is a call
    of [onResult] for it. *)
Definition registers (requestId : string) (op : Op) : option Callback :=
  match op with
  | OnResult requestId' callback =>
      if decide (requestId' = requestId) then Some callback else None
  | _ => None
  end.

(** The callbacks registered for [requestId] by a run of events, in order. *)
Definition registered (requestId : string) (ops : list Op) : list Callback :=
  omap (registers requestId) ops.

(** Events that bring no result of their own: registrations for
    [requestId], calls of [open], microtasks and changes of the hash. *)
Definition local_to (requestId : string) (op : Op) : bool :=
  match op with
  | OnResult requestId' _ => bool_decide (requestId' = requestId)
  | Open _ _ _ _ _ => true
  | AcceptResult _ => false
  | Microtask => true
  | SetHash _ => true
  end.

(** The events of a run that are not changes of [location.hash]. *)
Definition keeps_hash (op : Op) : bool :=
  match op with
  | SetHash _ => false
  | _ => true
  end.

Definition strip_hash (ops : list Op) : list Op :=
  List.filter keeps_hash ops.

(** Every port that waits for its result was allocated by the page. *)
Definition awaiting_allocated (w : World) : Prop :=
  Forall (fun entry => port_ref (snd entry) < next_ref w) (awaiting w).

(** The reaction that waits for the port with reference [ref] is
    [(r, p)]. *)
Definition waits_for (ref : nat) (r : string) (p : Port) (w : World) : Prop :=
  exists rest, take_awaiting ref (awaiting w) = Some (r, p, rest).



(** The request id that a port was made for: the [requestId] given to
    [new ActivityWindowPort], or the one carried by the redirect response;
    for a member of [Object.prototype], the name under which it is read. *)
Definition request_of (port : Port) : string :=
  match port_body port with
  | ActivityWindowPort requestId _ _ _ _ => requestId
  | ActivityWindowRedirectPort response => resp_requestId response
  | ObjectPrototypeMember name => name
  end.

(** Ports sit under, wait under, and are delivered under their own request
    id. *)
Record routing_inv (w : World) : Prop := {
  route_buffer : forall r p,
    resultBuffer_ (this w) !! r = Some p -> request_of p = r;
  route_awaiting : forall r p, (r, p) ∈ awaiting w -> request_of p = r;
  route_history : forall cb p,
    (cb, p) ∈ history w -> cb ∈ handlers_of (request_of p) (this w);
}.

(** Calls of [onResult] and [open] that name [requestId]. *)
Definition concerns (requestId : string) (op : Op) : bool :=
  match op with
  | OnResult requestId' _ => bool_decide (requestId' = requestId)
  | Open requestId' _ _ _ _ => bool_decide (requestId' = requestId)
  | AcceptResult _ => false
  | Microtask => false
  | SetHash _ => false
  end.

(** ** Redirect results *)

Section Redirect.

(** The codec of the redirect fragment (percent-decoding and parsing of the
    value under the reserved key): the record found in a fragment, or
    nothing when the key is absent or its value malformed. *)
Variable parseResponse : string -> option RedirectResponse.

(** Modelled from the spec: [discoverRedirectPort] is defined in
    activity-window-port.js, outside the manager.  It parses the result
    payload embedded in the given fragment, matches its [requestId] and,
    only on match, constructs the synthetic port. *)
Definition discoverRedirectPort (win : Window) (fragment requestId : string)
    : option PortBody :=
  match parseResponse fragment with
  | Some response =>
      if String.eqb (resp_requestId response) requestId
      then Some (ActivityWindowRedirectPort response)
      else None
  | None => None
  end.

End Redirect.

(** ** Promises *)

(** The fate of a promise. *)
Inductive Promise (A : Type) :=
| Fulfilled (value : A)
| Rejected (reason : string)
| Pending.
Arguments Fulfilled {A} value.
Arguments Rejected {A} reason.
Arguments Pending {A}.

(** [promise.then(onFulfilled)] for an [onFulfilled] that cannot throw. *)
Definition then_ {A B : Type} (promise : Promise A) (onFulfilled : A -> B)
    : Promise B :=
  match promise with
  | Fulfilled value => Fulfilled (onFulfilled value)
  | Rejected reason => Rejected reason
  | Pending => Pending
  end.

(** ** Iframe activities *)

(** The fields that [new ActivityIframePort(iframe, url, opt_args)] binds. *)
Record ActivityIframePort := {
  iframe_ : nat;
  url_ : string;
  args_ : option Value;
}.

Section Iframe.

(** [port.connect()] of activity-iframe-port.js.  Every call is a handshake
    attempt of its own; the second argument is the number of attempts the
    page has made before this one. *)
Variable connect : ActivityIframePort -> nat -> Promise unit.

(** [openIframe(iframe, url, opt_args)], lines 71-74, threading the number
    of handshake attempts made so far. *)
Definition openIframe (iframe : nat) (url : string)
    (opt_args : option Value) (attempts : nat)
    : Promise ActivityIframePort * nat :=
  let port := {| iframe_ := iframe; url_ := url; args_ := opt_args |} in
  (then_ (connect port attempts) (fun _ => port), S attempts).

End Iframe.

(** ** Hosts *)

(** [opt_request] of [connectHost]: an [ActivityRequestDef] or a string. *)
Inductive HostRequest :=
| RequestDef (requestId returnUrl : string) (args : option Value)
| RequestString (s : string).

(** The three host classes, each constructed with the window. *)
Inductive ActivityHost :=
| ActivityIframeHost (win : Window)
| ActivityWindowPopupHost (win : Window)
| ActivityWindowRedirectHost (win : Window).

Section Hosts.

(** [host.connect(opt_request)] of the host classes. *)
Variable host_connect :
  ActivityHost -> option HostRequest -> Promise ActivityHost.

(** [connectHost(opt_request)], lines 162-175. *)
Definition connectHost (win_ : Window) (opt_request : option HostRequest)
    : Promise ActivityHost :=
  let host :=
    if negb (Nat.eqb (top win_) (win_ref win_)) then
      (* Iframe host. *)
      ActivityIframeHost win_
    else if match opener win_ with
            | Some o => negb (closed o)
            | None => false
            end then
      (* Window host: popup. *)
      ActivityWindowPopupHost win_
    else
      (* Window host: redirect. *)
      ActivityWindowRedirectHost win_ in
  host_connect host opt_request.

End Hosts.

(** ** Sample pages

    The pages of the repository's test file, used to run the model. *)

(** A top-level window without opener and without fragment. *)
Definition plain_win : Window :=
  {| win_ref := 1; top := 1; opener := None; location_hash := EmptyString |}.

(** The fragment of the test 'should pick up redirect result'. *)
Definition request1_fragment : string :=
  "#__WA_RES__=%7B%22requestId%22%3A%22request1%22%2C%22code%22%3A%22ok%22%2C%22data%22%3A%22ok%22%2C%22origin%22%3A%22https%3A%2F%2Fexample.com%22%7D".

Definition request1_response : RedirectResponse :=
  {| resp_requestId := "request1"; resp_code := OK; resp_data := VStr "ok";
     resp_origin := "https://example.com" |}.

(** A codec that knows this one fragment. *)
Definition test_parseResponse (fragment : string) : option RedirectResponse :=
  if String.eqb fragment request1_fragment then Some request1_response
  else None.

(** Redirect discovery with this codec. *)
Definition test_discover : Window -> string -> string -> option PortBody :=
  discoverRedirectPort test_parseResponse.

(** The window of a page that was reached by the redirect back. *)
Definition redirected_win : Window :=
  {| win_ref := 1; top := 1; opener := None;
     location_hash := request1_fragment |}.

(** [sandbox.spy()] and a callback that throws. *)
Definition spy (ref : nat) : Callback :=
  {| cb_ref := ref; cb_body := fun _ => Normal |}.

Definition failing (ref : nat) : Callback :=
  {| cb_ref := ref; cb_body := fun _ => Throw "intentional" |}.

(** The synthetic port of the redirect result, as the first object the page
    allocates. *)
Definition redirect_port : Port :=
  {| port_ref := 0; port_body := ActivityWindowRedirectPort request1_response |}.

(** The port that the first [open('request1', ...)] of a page constructs. *)
Definition request1_port : Port :=
  {| port_ref := 0;
     port_body :=
       ActivityWindowPort "request1" "https://example.com/file" "_blank"
         None None |}.

(** The page of the test 'should tolerate callback failures', before the
    result arrives. *)
Definition tolerant_page : World :=
  run test_discover
    [OnResult "request1" (failing 1); OnResult "request1" (spy 2);
     Open "request1" "https://example.com/file" "_blank" None None]
    (boot plain_win).

(** Windows of the tests of [connectHost]: embedded in another window,
    opened by a window that is still there, opened by a window that is
    closed. *)
Definition framed_win : Window :=
  {| win_ref := 1; top := 2; opener := None; location_hash := EmptyString |}.

Definition popup_win : Window :=
  {| win_ref := 1; top := 1; opener := Some {| closed := false |};
     location_hash := EmptyString |}.

Definition orphan_win : Window :=
  {| win_ref := 1; top := 1; opener := Some {| closed := true |};
     location_hash := EmptyString |}.

(** Hosts whose [connect] resolves with the host itself. *)
Definition test_host_connect (host : ActivityHost)
    (opt_request : option HostRequest) : Promise ActivityHost :=
  Fulfilled host.

(** A handshake that fails at the first attempt of the page and would
    succeed at any later one. *)
Definition flaky_connect (port : ActivityIframePort) (attempt : nat)
    : Promise unit :=
  match attempt with
  | 0 => Rejected "intentional"
  | S _ => Fulfilled tt
  end.

(** The port of a second [open('request1', ...)] on a page whose first
    object was [request1_port]. *)
Definition request1_port_again : Port :=
  {| port_ref := 1;
     port_body :=
       ActivityWindowPort "request1" "https://example.com/file" "_blank"
         None None |}.

(** A page that opened the activity 'request1', received its result, and
    opened an activity under the same id once more. *)
Definition reopened_page : World :=
  run test_discover
    [Open "request1" "https://example.com/file" "_blank" None None;
     AcceptResult 0;
     Open "request1" "https://example.com/file" "_blank" None None]
    (boot plain_win).

(** A page that came back from a redirect with the result of 'request1' in
    its fragment, opened a popup under the same id and received the popup's
    result before anybody asked for the result of 'request1'. *)
Definition popup_first_page : World :=
  run test_discover
    [Open "request1" "https://example.com/file" "_blank" None None;
     AcceptResult 0]
    (boot redirected_win).

(** A helper that finds a result whatever it is asked. *)
Definition eager_discover (win : Window) (fragment requestId : string)
    : option PortBody :=
  Some (ActivityWindowRedirectPort
          {| resp_requestId := requestId; resp_code := OK;
             resp_data := VNull; resp_origin := "https://example.com" |}).

(** A redirect back with the result of an activity that was opened under
    the request id 'constructor': the fragment, its response, a codec that
    knows this fragment, and the window of the page. *)
Definition constructor_fragment : string :=
  "#__WA_RES__=%7B%22requestId%22%3A%22constructor%22%2C%22code%22%3A%22ok%22%2C%22data%22%3A%22ok%22%2C%22origin%22%3A%22https%3A%2F%2Fexample.com%22%7D".

Definition constructor_response : RedirectResponse :=
  {| resp_requestId := "constructor"; resp_code := OK; resp_data := VStr "ok";
     resp_origin := "https://example.com" |}.

Definition constructor_parseResponse (fragment : string)
    : option RedirectResponse :=
  if String.eqb fragment constructor_fragment then Some constructor_response
  else None.

Definition constructor_win : Window :=
  {| win_ref := 1; top := 1; opener := None;
     location_hash := constructor_fragment |}.

(** The port that the first [open('constructor', ...)] of a page
    constructs. *)
Definition constructor_port : Port :=
  {| port_ref := 0;
     port_body :=
       ActivityWindowPort "constructor" "https://example.com/file" "_blank"
         None None |}.

(** * Properties *)

(** ** Tables and reads *)

Lemma table_lookup_inherited {V : Type} (t : Table V) (name : string) :
  inherited name = true -> t !! name = None.
Proof. intros H. unfold lookup, table_lookup. by rewrite H. Qed.

Lemma table_lookup_Some {V : Type} (t : Table V) (name : string) (v : V) :
  t !! name = Some v -> inherited name = false.
Proof.
  unfold lookup at 1, table_lookup. by destruct (inherited name).
Qed.

Lemma table_lookup_empty {V : Type} (name : string) :
  (∅ : Table V) !! name = None.
Proof.
  unfold lookup, table_lookup. destruct (inherited name); [done|].
  apply lookup_empty.
Qed.

Lemma table_lookup_insert_eq {V : Type} (t : Table V) (name : string) (v : V) :
  inherited name = false -> <[name := v]> t !! name = Some v.
Proof.
  intros H. unfold lookup at 1, insert, table_lookup, table_insert.
  rewrite H. simpl. apply lookup_insert_eq.
Qed.

Lemma table_lookup_insert_ne {V : Type} (t : Table V) (name name' : string)
    (v : V) :
  name <> name' -> <[name := v]> t !! name' = t !! name'.
Proof.
  intros H. unfold lookup, insert, table_lookup, table_insert.
  destruct (inherited name'); [done|]. destruct (inherited name); [done|].
  simpl. by apply lookup_insert_ne.
Qed.

Lemma read_inherited {V : Type} (t : Table V) (name : string) :
  inherited name = true -> read t name = FromPrototype name.
Proof. intros H. unfold read. by rewrite H. Qed.

Lemma read_Some {V : Type} (t : Table V) (name : string) (v : V) :
  t !! name = Some v -> read t name = Own v.
Proof.
  intros H. unfold read. rewrite (table_lookup_Some t name v H). by rewrite H.
Qed.

Lemma read_None {V : Type} (t : Table V) (name : string) :
  inherited name = false -> t !! name = None -> read t name = Undefined.
Proof. intros Hi H. unfold read. by rewrite Hi, H. Qed.

Lemma buffered_Some (r : string) (p : Port) (a : Activities) :
  resultBuffer_ a !! r = Some p -> buffered r a = Some p.
Proof. intros H. unfold buffered. by rewrite (read_Some _ r p H). Qed.

Lemma buffered_inherited (r : string) (a : Activities) :
  inherited r = true -> buffered r a = Some (inherited_member r).
Proof. intros H. unfold buffered. by rewrite read_inherited. Qed.

Lemma buffered_ordinary (r : string) (a : Activities) :
  inherited r = false -> buffered r a = resultBuffer_ a !! r.
Proof.
  intros H. unfold buffered, read. rewrite H.
  by destruct (resultBuffer_ a !! r).
Qed.

Lemma handlers_of_inherited (r : string) (a : Activities) :
  inherited r = true -> handlers_of r a = [].
Proof. intros H. unfold handlers_of. by rewrite table_lookup_inherited. Qed.

Lemma handlers_of_boot (r : string) (window : Window) :
  handlers_of r (this (boot window)) = [].
Proof. unfold handlers_of. simpl. by rewrite table_lookup_empty. Qed.

Lemma handlers_of_elem (r : string) (cb : Callback) (a : Activities) :
  cb ∈ handlers_of r a -> inherited r = false.
Proof.
  intros Hin. destruct (inherited r) eqn:Hi; [|done].
  rewrite handlers_of_inherited in Hin by done. by apply elem_of_nil in Hin.
Qed.

(** ** The microtask queue *)

Lemma with_microtasks_id (w : World) : with_microtasks (microtasks w) w = w.
Proof. by destruct w. Qed.

Lemma run_job_microtasks (j : Job) (w : World) :
  microtasks (run_job j w) = microtasks w.
Proof. unfold run_job. by destruct (cb_body _ _). Qed.

Lemma run_job_this (j : Job) (w : World) : this (run_job j w) = this w.
Proof. unfold run_job. by destruct (cb_body _ _). Qed.

Lemma run_job_calls (j : Job) (w : World) :
  calls (run_job j w) = calls w ++ [call_of j].
Proof. unfold run_job. by destruct (cb_body _ _). Qed.

Lemma run_job_unhandled (j : Job) (w : World) :
  unhandled (run_job j w) = unhandled w ++ option_list (thrown j).
Proof.
  unfold run_job, thrown. destruct (cb_body _ _); simpl; [|done].
  by rewrite app_nil_r.
Qed.

Lemma run_job_with_microtasks (j : Job) (q : list Job) (w : World) :
  with_microtasks q (run_job j w) = run_job j (with_microtasks q w).
Proof. unfold run_job. by destruct (cb_body _ _). Qed.

Lemma run_jobs_microtasks (q : list Job) (w : World) :
  microtasks (run_jobs q w) = microtasks w.
Proof.
  revert w. induction q as [|j q IH]; intros w; simpl; [done|].
  by rewrite IH, run_job_microtasks.
Qed.

Lemma run_jobs_this (q : list Job) (w : World) : this (run_jobs q w) = this w.
Proof.
  revert w. induction q as [|j q IH]; intros w; simpl; [done|].
  by rewrite IH, run_job_this.
Qed.

Lemma run_jobs_calls (q : list Job) (w : World) :
  calls (run_jobs q w) = calls w ++ map call_of q.
Proof.
  revert w. induction q as [|j q IH]; intros w; simpl.
  - by rewrite app_nil_r.
  - by rewrite IH, run_job_calls, <- app_assoc.
Qed.

Lemma run_jobs_unhandled (q : list Job) (w : World) :
  unhandled (run_jobs q w) = unhandled w ++ omap thrown q.
Proof.
  revert w. induction q as [|j q IH]; intros w; simpl.
  - by rewrite app_nil_r.
  - rewrite IH, run_job_unhandled, <- app_assoc. f_equal.
    by destruct (thrown j).
Qed.

(** Draining the queue runs exactly the jobs that are in it, in order. *)
Lemma drain_run_jobs (w : World) :
  drain w = run_jobs (microtasks w) (with_microtasks [] w).
Proof.
  unfold drain. remember (microtasks w) as q eqn:Hq.
  revert w Hq. induction q as [|j q IH]; intros w Hq; cbn [length run_jobs].
  - simpl. by rewrite Hq, with_microtasks_id.
  - rewrite Nat.iter_succ_r. unfold run_microtask at 2. rewrite <- Hq.
    rewrite (IH (run_job j (with_microtasks q w))).
    + by rewrite run_job_with_microtasks.
    + by rewrite run_job_microtasks.
Qed.

Lemma drain_microtasks (w : World) : microtasks (drain w) = [].
Proof. by rewrite drain_run_jobs, run_jobs_microtasks. Qed.

Lemma drain_this (w : World) : this (drain w) = this w.
Proof. by rewrite drain_run_jobs, run_jobs_this. Qed.

Lemma drain_calls (w : World) :
  calls (drain w) = calls w ++ map call_of (microtasks w).
Proof. by rewrite drain_run_jobs, run_jobs_calls. Qed.

Lemma drain_unhandled (w : World) :
  unhandled (drain w) = unhandled w ++ omap thrown (microtasks w).
Proof. by rewrite drain_run_jobs, run_jobs_unhandled. Qed.

(** ** The methods of the manager, field by field *)

Section ManagerFacts.

Variable discover : Window -> string -> string -> option PortBody.

Lemma foldl_consumeResult_ (port : Port) (handlers : list Callback) (w : World) :
  foldl (fun w' handler => consumeResult_ port handler w') w handlers
  = with_microtasks (microtasks w ++ map (job_of port) handlers) w.
Proof.
  revert w. induction handlers as [|h hs IH]; intros w; simpl.
  - by rewrite app_nil_r, with_microtasks_id.
  - rewrite IH. unfold consumeResult_, with_microtasks. simpl.
    by rewrite <- app_assoc.
Qed.

(** Under an inherited name [consumeResultAll_] throws and does nothing
    else. *)
Lemma consumeResultAll_inherited (requestId : string) (port : Port)
    (w : World) :
  inherited requestId = true ->
  consumeResultAll_ requestId port w
  = raise "TypeError: handlers.forEach is not a function" w.
Proof. intros H. unfold consumeResultAll_. by rewrite read_inherited. Qed.

(** Under any other name [consumeResultAll_] queues one job per registered
    handler, in registration order, and stores the port. *)
Lemma consumeResultAll_eq (requestId : string) (port : Port) (w : World) :
  inherited requestId = false ->
  consumeResultAll_ requestId port w
  = with_this (set_result requestId port)
      (with_microtasks
         (microtasks w ++ map (job_of port) (handlers_of requestId (this w)))
         w).
Proof.
  intros H. unfold consumeResultAll_, handlers_of, read. rewrite H.
  destruct (requestHandlers_ (this w) !! requestId) as [hs|].
  - by rewrite foldl_consumeResult_.
  - simpl. by rewrite app_nil_r, with_microtasks_id.
Qed.

(** Adding a handler changes neither what [discoverResult_] finds nor what it
    stores. *)
Lemma discoverResult_set_handlers (r r' : string) (hs : list Callback)
    (w : World) :
  discoverResult_ discover r (with_this (set_handlers r' hs) w)
  = (fst (discoverResult_ discover r w),
     with_this (set_handlers r' hs) (snd (discoverResult_ discover r w))).
Proof.
  unfold discoverResult_. simpl.
  change (buffered r (set_handlers r' hs (this w))) with (buffered r (this w)).
  destruct (buffered r (this w)); [done|].
  destruct (String.eqb _ _); [done|].
  by destruct (discover _ _ _).
Qed.

(** Under an inherited name [onResult] throws and does nothing else. *)
Lemma onResult_inherited (r : string) (cb : Callback) (w : World) :
  inherited r = true ->
  onResult discover r cb w
  = raise "TypeError: handlers.push is not a function" w.
Proof. intros H. unfold onResult. by rewrite read_inherited. Qed.

(** [onResult] under any other name, in one equation. *)
Lemma onResult_eq (r : string) (cb : Callback) (w : World) :
  inherited r = false ->
  onResult discover r cb w
  = let w2 := with_this (set_handlers r (handlers_of r (this w) ++ [cb]))
                (snd (discoverResult_ discover r w)) in
    match fst (discoverResult_ discover r w) with
    | Some port => consumeResult_ port cb w2
    | None => w2
    end.
Proof.
  intros H. unfold onResult, handlers_of, read. rewrite H.
  destruct (requestHandlers_ (this w) !! r) as [hs|];
    unfold onResult_push; rewrite discoverResult_set_handlers;
    by destruct (fst (discoverResult_ discover r w)).
Qed.

(** [discoverResult_] touches nothing but the result buffer and the
    reference counter. *)
Lemma discoverResult_microtasks (r : string) (w : World) :
  microtasks (snd (discoverResult_ discover r w)) = microtasks w.
Proof.
  unfold discoverResult_.
  destruct (buffered r (this w)); [done|].
  destruct (String.eqb _ _); [done|].
  by destruct (discover _ _ _).
Qed.

Lemma discoverResult_calls (r : string) (w : World) :
  calls (snd (discoverResult_ discover r w)) = calls w.
Proof.
  unfold discoverResult_.
  destruct (buffered r (this w)); [done|].
  destruct (String.eqb _ _); [done|].
  by destruct (discover _ _ _).
Qed.

Lemma discoverResult_handlers (r : string) (w : World) :
  requestHandlers_ (this (snd (discoverResult_ discover r w)))
  = requestHandlers_ (this w).
Proof.
  unfold discoverResult_.
  destruct (buffered r (this w)); [done|].
  destruct (String.eqb _ _); [done|].
  by destruct (discover _ _ _).
Qed.

Lemma discoverResult_fragment (r : string) (w : World) :
  fragment_ (this (snd (discoverResult_ discover r w))) = fragment_ (this w).
Proof.
  unfold discoverResult_.
  destruct (buffered r (this w)); [done|].
  destruct (String.eqb _ _); [done|].
  by destruct (discover _ _ _).
Qed.

Lemma discoverResult_win (r : string) (w : World) :
  win (snd (discoverResult_ discover r w)) = win w.
Proof.
  unfold discoverResult_.
  destruct (buffered r (this w)); [done|].
  destruct (String.eqb _ _); [done|].
  by destruct (discover _ _ _).
Qed.

(** What [discoverResult_] returns is what a read of the buffer finds
    afterwards. *)
Lemma discoverResult_buffered (r : string) (w : World) :
  buffered r (this (snd (discoverResult_ discover r w)))
  = fst (discoverResult_ discover r w).
Proof.
  unfold discoverResult_.
  destruct (buffered r (this w)) as [p|] eqn:Hb; [done|].
  destruct (String.eqb _ _); [done|].
  destruct (discover _ _ _); simpl; [|done].
  apply buffered_Some. simpl. apply table_lookup_insert_eq.
  destruct (inherited r) eqn:Hi; [|done].
  by rewrite buffered_inherited in Hb.
Qed.

(** Nothing is discovered when neither the buffer nor the fragment has a
    result; the page is left as it was. *)
Lemma discoverResult_none (r : string) (w : World) :
  inherited r = false ->
  resultBuffer_ (this w) !! r = None ->
  discover (win w) (fragment_ (this w)) r = None ->
  discoverResult_ discover r w = (None, w).
Proof.
  intros Hi Hb Hd. unfold discoverResult_.
  rewrite (buffered_ordinary r (this w) Hi), Hb, Hd.
  by destruct (String.eqb _ _).
Qed.

Lemma buffered_None (r : string) (a : Activities) :
  buffered r a = None -> inherited r = false /\ resultBuffer_ a !! r = None.
Proof.
  intros H. destruct (inherited r) eqn:Hi.
  - by rewrite buffered_inherited in H.
  - by rewrite buffered_ordinary in H.
Qed.

Lemma buffered_cases (r : string) (p : Port) (a : Activities) :
  buffered r a = Some p ->
  resultBuffer_ a !! r = Some p
  \/ (inherited r = true /\ p = inherited_member r).
Proof.
  intros H. destruct (inherited r) eqn:Hi.
  - rewrite buffered_inherited in H by done. right. by inversion H.
  - rewrite buffered_ordinary in H by done. by left.
Qed.

(** The two ways in which [discoverResult_] finds a port. *)
Lemma discoverResult_some (r : string) (p : Port) (w w' : World) :
  discoverResult_ discover r w = (Some p, w') ->
  (buffered r (this w) = Some p /\ w' = w)
  \/ (inherited r = false
      /\ resultBuffer_ (this w) !! r = None
      /\ fragment_ (this w) <> EmptyString
      /\ discover (win w) (fragment_ (this w)) r = Some (port_body p)
      /\ port_ref p = next_ref w
      /\ w' = with_this (set_result r p) (alloc w)).
Proof.
  unfold discoverResult_.
  destruct (buffered r (this w)) as [p0|] eqn:Hb.
  - intros [= <- <-]. by left.
  - apply buffered_None in Hb as [Hi Hb].
    destruct (String.eqb_spec (fragment_ (this w)) EmptyString) as [|Hf];
      [done|].
    destruct (discover (win w) (fragment_ (this w)) r) as [body|] eqn:Hd;
      [|done].
    intros [= <- <-]. right. by repeat split.
Qed.

(** [discoverResult_] changes at most the entry of the id it is asked
    for, to the port it returns. *)
Lemma discoverResult_buffer_cases (r r' : string) (p : Port) (w : World) :
  resultBuffer_ (this (snd (discoverResult_ discover r w))) !! r' = Some p ->
  resultBuffer_ (this w) !! r' = Some p
  \/ (r' = r /\ fst (discoverResult_ discover r w) = Some p).
Proof.
  destruct (discoverResult_ discover r w) as [[p0|] w'] eqn:Hd; simpl.
  - apply discoverResult_some in Hd
      as [[_ ->]|(Hi & _ & _ & _ & _ & ->)]; [by left|].
    simpl. destruct (decide (r = r')) as [<-|Hne].
    + rewrite table_lookup_insert_eq by done. intros [= <-]. by right.
    + rewrite table_lookup_insert_ne by done. by left.
  - assert (w' = w) as ->; [|by left].
    revert Hd. unfold discoverResult_.
    destruct (buffered r (this w)); [done|].
    destruct (String.eqb _ _); [by intros [= <-]|].
    destruct (discover _ _ _); [done|]. by intros [= <-].
Qed.

(** [discoverResult_] leaves the page as it is, unless it constructs a port
    for an id that has no entry, which it then stores and returns. *)
Lemma discoverResult_state (r : string) (w : World) :
  snd (discoverResult_ discover r w) = w
  \/ (inherited r = false
      /\ resultBuffer_ (this w) !! r = None
      /\ exists p,
           fst (discoverResult_ discover r w) = Some p
           /\ snd (discoverResult_ discover r w)
              = with_this (set_result r p) (alloc w)).
Proof.
  destruct (discoverResult_ discover r w) as [[p|] w'] eqn:Hd; simpl.
  - apply discoverResult_some in Hd
      as [[_ ->]|(Hi & Hb & _ & _ & _ & ->)]; [by left|].
    right. split; [done|]. split; [done|]. by exists p.
  - left. revert Hd. unfold discoverResult_.
    destruct (buffered r (this w)); [done|].
    destruct (String.eqb _ _); [by intros [= <-]|].
    destruct (discover _ _ _); [done|]. by intros [= <-].
Qed.

(** [discoverResult_] leaves the entries of all other ids alone. *)
Lemma discoverResult_other_entry (r r' : string) (w : World) :
  r <> r' ->
  resultBuffer_ (this (snd (discoverResult_ discover r' w))) !! r
  = resultBuffer_ (this w) !! r.
Proof.
  intros Hne.
  destruct (discoverResult_state r' w) as [->|(_ & _ & p & _ & ->)]; [done|].
  simpl. by rewrite table_lookup_insert_ne.
Qed.

(** Under an inherited name [discoverResult_] returns the inherited member
    and does nothing. *)
Lemma discoverResult_inherited (r : string) (w : World) :
  inherited r = true ->
  discoverResult_ discover r w = (Some (inherited_member r), w).
Proof.
  intros Hi. unfold discoverResult_. by rewrite buffered_inherited.
Qed.

(** A buffered port is what [discoverResult_] returns. *)
Lemma discoverResult_hit (r : string) (p : Port) (w : World) :
  resultBuffer_ (this w) !! r = Some p ->
  discoverResult_ discover r w = (Some p, w).
Proof.
  intros Hb. unfold discoverResult_. by rewrite (buffered_Some r p _ Hb).
Qed.

Lemma consumeResultAll_microtasks (r : string) (p : Port) (w : World) :
  microtasks (consumeResultAll_ r p w)
  = microtasks w ++ map (job_of p) (handlers_of r (this w)).
Proof.
  destruct (inherited r) eqn:Hi.
  - rewrite consumeResultAll_inherited, handlers_of_inherited by done.
    simpl. by rewrite app_nil_r.
  - by rewrite consumeResultAll_eq.
Qed.

Lemma consumeResultAll_calls (r : string) (p : Port) (w : World) :
  calls (consumeResultAll_ r p w) = calls w.
Proof.
  destruct (inherited r) eqn:Hi.
  - by rewrite consumeResultAll_inherited.
  - by rewrite consumeResultAll_eq.
Qed.

Lemma consumeResultAll_awaiting (r : string) (p : Port) (w : World) :
  awaiting (consumeResultAll_ r p w) = awaiting w.
Proof.
  destruct (inherited r) eqn:Hi.
  - by rewrite consumeResultAll_inherited.
  - by rewrite consumeResultAll_eq.
Qed.

Lemma consumeResultAll_next_ref (r : string) (p : Port) (w : World) :
  next_ref (consumeResultAll_ r p w) = next_ref w.
Proof.
  destruct (inherited r) eqn:Hi.
  - by rewrite consumeResultAll_inherited.
  - by rewrite consumeResultAll_eq.
Qed.

Lemma consumeResultAll_fragment (r : string) (p : Port) (w : World) :
  fragment_ (this (consumeResultAll_ r p w)) = fragment_ (this w).
Proof.
  destruct (inherited r) eqn:Hi.
  - by rewrite consumeResultAll_inherited.
  - by rewrite consumeResultAll_eq.
Qed.

(** The buffer after [consumeResultAll_], entry by entry. *)
Lemma consumeResultAll_lookup (r r' : string) (p' : Port) (w : World) :
  resultBuffer_ (this (consumeResultAll_ r' p' w)) !! r
  = if decide (r' = r)
    then (if inherited r then None else Some p')
    else resultBuffer_ (this w) !! r.
Proof.
  destruct (inherited r') eqn:Hi.
  - rewrite consumeResultAll_inherited by done. simpl.
    case_decide as Hr; [|done]. subst r'. rewrite Hi.
    by apply table_lookup_inherited.
  - rewrite consumeResultAll_eq by done. simpl. case_decide as Hr.
    + subst r'. rewrite Hi. by apply table_lookup_insert_eq.
    + by apply table_lookup_insert_ne.
Qed.

(** [onResult] calls nothing, takes nothing off the queue, and leaves the
    buffer as [discoverResult_] leaves it. *)
Lemma onResult_calls (r : string) (cb : Callback) (w : World) :
  calls (onResult discover r cb w) = calls w.
Proof.
  destruct (inherited r) eqn:Hi.
  - by rewrite onResult_inherited.
  - rewrite onResult_eq by done. simpl.
    destruct (fst (discoverResult_ discover r w)); simpl;
      apply discoverResult_calls.
Qed.

Lemma onResult_microtasks (r : string) (cb : Callback) (w : World) :
  microtasks (onResult discover r cb w)
  = microtasks w
    ++ (if inherited r then []
        else match fst (discoverResult_ discover r w) with
             | Some p => [job_of p cb]
             | None => []
             end).
Proof.
  destruct (inherited r) eqn:Hi.
  - rewrite onResult_inherited by done. simpl. by rewrite app_nil_r.
  - rewrite onResult_eq by done. simpl.
    destruct (fst (discoverResult_ discover r w)); simpl;
      rewrite discoverResult_microtasks; [done|]. by rewrite app_nil_r.
Qed.

Lemma onResult_result_buffer (r : string) (cb : Callback) (w : World) :
  resultBuffer_ (this (onResult discover r cb w))
  = resultBuffer_ (this (snd (discoverResult_ discover r w))).
Proof.
  destruct (inherited r) eqn:Hi.
  - by rewrite onResult_inherited, discoverResult_inherited.
  - rewrite onResult_eq by done. simpl.
    by destruct (fst (discoverResult_ discover r w)).
Qed.

Lemma onResult_fragment (r : string) (cb : Callback) (w : World) :
  fragment_ (this (onResult discover r cb w)) = fragment_ (this w).
Proof.
  destruct (inherited r) eqn:Hi.
  - by rewrite onResult_inherited.
  - rewrite onResult_eq by done. simpl.
    destruct (fst (discoverResult_ discover r w)); simpl;
      apply discoverResult_fragment.
Qed.

(** What [onResult] adds to the calls made or queued. *)
Lemma onResult_history_step (r : string) (cb : Callback) (w : World) :
  history (onResult discover r cb w)
  = history w
    ++ (if inherited r then []
        else match fst (discoverResult_ discover r w) with
             | Some p => [(cb, p)]
             | None => []
             end).
Proof.
  unfold history. rewrite onResult_calls, onResult_microtasks.
  rewrite map_app, app_assoc. f_equal.
  destruct (inherited r); [done|].
  by destruct (fst (discoverResult_ discover r w)).
Qed.

End ManagerFacts.

(** ** The scenarios of the repository's tests *)

(** 'should support multiple onResult'. *)
Example test_multiple_onResult :
  calls (run test_discover
           [OnResult "request1" (spy 1); OnResult "request1" (spy 2);
            Open "request1" "https://example.com/file" "_blank" None None;
            AcceptResult 0; Microtask; Microtask;
            OnResult "request1" (spy 3); Microtask]
           (boot plain_win))
  = [(spy 1, request1_port); (spy 2, request1_port); (spy 3, request1_port)].
Proof. reflexivity. Qed.

(** 'should tolerate callback failures'. *)
Example test_tolerate_callback_failures :
  calls (drain (step test_discover tolerant_page (AcceptResult 0)))
  = [(failing 1, request1_port); (spy 2, request1_port)]
  /\ unhandled (drain (step test_discover tolerant_page (AcceptResult 0)))
     = ["intentional"].
Proof. split; reflexivity. Qed.

(** 'should pick up redirect result'. *)
Example test_pick_up_redirect_result :
  calls (run test_discover
           [OnResult "request1" (spy 1); OnResult "request1" (spy 2);
            OnResult "request2" (spy 9); Microtask; Microtask;
            OnResult "request1" (spy 3); Microtask; Microtask]
           (boot redirected_win))
  = [(spy 1, redirect_port); (spy 2, redirect_port); (spy 3, redirect_port)].
Proof. reflexivity. Qed.

(** ** Deferred delivery *)

(** X10. When [onResult(requestId, callback)] is called under a name that is
    not inherited from [Object.prototype] and a result for [requestId] is
    available (in the buffer or in the captured fragment), the call itself
    invokes nothing: the list of calls is as before.  It queues exactly one
    microtask for the callback with the available port, behind the jobs
    already queued, so that draining the queue makes exactly one more call,
    [callback(port)], after all the others. *)
Theorem onResult_available_is_deferred
    (discover : Window -> string -> string -> option PortBody)
    (requestId : string) (callback : Callback) (port : Port) (w : World) :
  inherited requestId = false ->
  fst (discoverResult_ discover requestId w) = Some port ->
  calls (onResult discover requestId callback w) = calls w
  /\ microtasks (onResult discover requestId callback w)
     = microtasks w ++ [job_of port callback]
  /\ calls (drain (onResult discover requestId callback w))
     = calls (drain w) ++ [(callback, port)].
Proof.
  intros Hi Hav.
  assert (Hc : calls (onResult discover requestId callback w) = calls w).
  { rewrite onResult_eq, Hav by done. simpl. apply discoverResult_calls. }
  assert (Hq : microtasks (onResult discover requestId callback w)
               = microtasks w ++ [job_of port callback]).
  { rewrite onResult_eq, Hav by done. simpl.
    by rewrite discoverResult_microtasks. }
  split; [done|]. split; [done|].
  rewrite !drain_calls, Hc, Hq, map_app. simpl. by rewrite app_assoc.
Qed.

Lemma onResult_available_is_deferred_witness :
  fst (discoverResult_ test_discover "request1"
         (boot redirected_win)) = Some redirect_port
  /\ calls (onResult test_discover "request1"
              (spy 1) (boot redirected_win)) = []
  /\ microtasks (onResult test_discover "request1"
                   (spy 1) (boot redirected_win))
     = [job_of redirect_port (spy 1)]
  /\ calls (drain (onResult test_discover
                     "request1" (spy 1) (boot redirected_win)))
     = [(spy 1, redirect_port)].
Proof.
  split; [reflexivity|].
  apply (onResult_available_is_deferred test_discover "request1" (spy 1)
           redirect_port (boot redirected_win)).
  - reflexivity.
  - reflexivity.
Defined.

(** ** Registrations and deliveries over time *)

Lemma drain_history (w : World) : calls (drain w) = history w.
Proof. apply drain_calls. Qed.

Section Monotone.

Variable discover : Window -> string -> string -> option PortBody.

Lemma onResult_handlers (r : string) (cb : Callback) (w : World) :
  inherited r = false ->
  requestHandlers_ (this (onResult discover r cb w))
  = <[r := handlers_of r (this w) ++ [cb]]> (requestHandlers_ (this w)).
Proof.
  intros Hi. rewrite onResult_eq by done. simpl.
  destruct (fst (discoverResult_ discover r w)); simpl;
    by rewrite discoverResult_handlers.
Qed.

(** A call of [onResult] adds its callback at the end of the list of its
    request id, unless the id is an inherited name, and touches no other
    list. *)
Lemma onResult_handlers_of (r r' : string) (cb : Callback) (w : World) :
  handlers_of r' (this (onResult discover r cb w))
  = if decide (r = r')
    then handlers_of r' (this w) ++ (if inherited r then [] else [cb])
    else handlers_of r' (this w).
Proof.
  destruct (inherited r) eqn:Hi.
  - rewrite onResult_inherited by done. simpl.
    case_decide; [|done]. by rewrite app_nil_r.
  - unfold handlers_of at 1. rewrite onResult_handlers by done.
    destruct (decide (r = r')) as [->|Hne].
    + by rewrite table_lookup_insert_eq.
    + by rewrite table_lookup_insert_ne.
Qed.

Lemma consumeResultAll_handlers (r : string) (p : Port) (w : World) :
  requestHandlers_ (this (consumeResultAll_ r p w)) = requestHandlers_ (this w).
Proof.
  destruct (inherited r) eqn:Hi.
  - by rewrite consumeResultAll_inherited.
  - by rewrite consumeResultAll_eq.
Qed.

Lemma acceptResult_then_handlers (ref : nat) (w : World) :
  requestHandlers_ (this (acceptResult_then ref w)) = requestHandlers_ (this w).
Proof.
  unfold acceptResult_then.
  destruct (take_awaiting ref (awaiting w)) as [[[r p] rest]|]; [|done].
  by rewrite consumeResultAll_handlers.
Qed.

Lemma run_microtask_this (w : World) : this (run_microtask w) = this w.
Proof.
  unfold run_microtask. destruct (microtasks w); [done|].
  by rewrite run_job_this.
Qed.




Lemma consumeResultAll_history (r : string) (p : Port) (w : World) :
  history (consumeResultAll_ r p w)
  = history w ++ map (fun h => (h, p)) (handlers_of r (this w)).
Proof.
  destruct (inherited r) eqn:Hi.
  { rewrite consumeResultAll_inherited, handlers_of_inherited by done.
    simpl. by rewrite app_nil_r. }
  unfold history. rewrite consumeResultAll_eq by done. simpl.
  by rewrite map_app, map_map, app_assoc.
Qed.

Lemma run_microtask_history (w : World) : history (run_microtask w) = history w.
Proof.
  unfold history, run_microtask. destruct (microtasks w) as [|j q] eqn:Hq.
  - by rewrite Hq.
  - rewrite run_job_calls, run_job_microtasks. simpl.
    by rewrite <- app_assoc.
Qed.



End Monotone.

(** ** Failing callbacks *)

(** C4. When a result is delivered for [requestId] and one of the registered
    callbacks throws, its error ends as a rejection that nobody handles,
    every callback registered for [requestId] (the siblings of the failing
    one included) is called with the port, in registration order, the
    manager's tables are exactly what the delivery left, and the buffer
    holds the delivered port. *)
Theorem callback_failure_is_isolated
    (requestId : string) (port : Port) (w : World)
    (failed : Callback) (error : string) :
  failed ∈ handlers_of requestId (this w) ->
  cb_body failed port = Throw error ->
  calls (drain (consumeResultAll_ requestId port w))
  = calls (drain w)
    ++ map (fun handler => (handler, port)) (handlers_of requestId (this w))
  /\ (forall sibling, sibling ∈ handlers_of requestId (this w) ->
        (sibling, port) ∈ calls (drain (consumeResultAll_ requestId port w)))
  /\ error ∈ unhandled (drain (consumeResultAll_ requestId port w))
  /\ this (drain (consumeResultAll_ requestId port w))
     = this (consumeResultAll_ requestId port w)
  /\ resultBuffer_ (this (drain (consumeResultAll_ requestId port w)))
       !! requestId = Some port.
Proof.
  intros Hin Hthrow.
  pose proof (handlers_of_elem requestId failed (this w) Hin) as Hi.
  assert (Hcalls :
    calls (drain (consumeResultAll_ requestId port w))
    = calls (drain w)
      ++ map (fun handler => (handler, port))
           (handlers_of requestId (this w))).
  { by rewrite !drain_history, consumeResultAll_history. }
  split; [done|]. split; [|split; [|split]].
  - intros sibling Hs. rewrite Hcalls. apply elem_of_app. right.
    apply (list_elem_of_fmap_2 (fun handler => (handler, port))). done.
  - rewrite drain_unhandled, consumeResultAll_eq by done. simpl.
    apply elem_of_app. right. rewrite omap_app. apply elem_of_app. right.
    apply list_elem_of_omap. exists (job_of port failed). split.
    + by apply (list_elem_of_fmap_2 (job_of port)).
    + unfold thrown. simpl. by rewrite Hthrow.
  - apply drain_this.
  - rewrite drain_this, consumeResultAll_eq by done. simpl.
    by apply table_lookup_insert_eq.
Qed.

Lemma callback_failure_is_isolated_witness :
  (spy 2, request1_port)
    ∈ calls (drain (consumeResultAll_ "request1" request1_port tolerant_page))
  /\ "intentional"
    ∈ unhandled (drain (consumeResultAll_ "request1" request1_port
                         tolerant_page)).
Proof.
  pose proof (callback_failure_is_isolated "request1" request1_port
                tolerant_page (failing 1) "intentional") as H.
  destruct H as (_ & Hsib & Herr & _).
  - vm_compute. apply list_elem_of_here.
  - reflexivity.
  - split; [|exact Herr]. apply Hsib.
    vm_compute. apply list_elem_of_further, list_elem_of_here.
Defined.

(** ** Repeated results *)


(** ** Registrations before and after a result *)

Section Batches.

Variable discover : Window -> string -> string -> option PortBody.

Lemma handlers_of_set_handlers (r : string) (hs : list Callback)
    (a : Activities) :
  inherited r = false ->
  handlers_of r (set_handlers r hs a) = hs.
Proof.
  intros Hi. unfold handlers_of. simpl. by rewrite table_lookup_insert_eq.
Qed.

Lemma onResult_unavailable (r : string) (cb : Callback) (w : World) :
  inherited r = false ->
  resultBuffer_ (this w) !! r = None ->
  discover (win w) (fragment_ (this w)) r = None ->
  onResult discover r cb w
  = with_this (set_handlers r (handlers_of r (this w) ++ [cb])) w.
Proof.
  intros Hi Hb Hd. rewrite onResult_eq by done.
  by rewrite (discoverResult_none discover r w Hi Hb Hd).
Qed.

Lemma onResult_buffered (r : string) (cb : Callback) (p : Port) (w : World) :
  resultBuffer_ (this w) !! r = Some p ->
  onResult discover r cb w
  = consumeResult_ p cb
      (with_this (set_handlers r (handlers_of r (this w) ++ [cb])) w).
Proof.
  intros Hb. rewrite onResult_eq by (by eapply table_lookup_Some).
  by rewrite (discoverResult_hit discover r p w Hb).
Qed.

(** Before the result: registrations only extend the handler list. *)
Lemma run_before_result (r : string) (ops : list Op) (w : World) :
  inherited r = false ->
  forallb (local_to r) ops = true ->
  resultBuffer_ (this w) !! r = None ->
  (forall win, discover win (fragment_ (this w)) r = None) ->
  history (run discover ops w) = history w
  /\ handlers_of r (this (run discover ops w))
     = handlers_of r (this w) ++ registered r ops.
Proof.
  intros Hi. revert w. induction ops as [|op ops IH]; intros w Hloc Hb Hd.
  - simpl. by rewrite app_nil_r.
  - simpl in Hloc. apply andb_prop in Hloc as [Hop Hloc].
    assert (Hstep :
      history (step discover w op) = history w
      /\ handlers_of r (this (step discover w op))
         = handlers_of r (this w) ++ option_list (registers r op)
      /\ resultBuffer_ (this (step discover w op)) !! r = None
      /\ fragment_ (this (step discover w op)) = fragment_ (this w)).
    { destruct op as [r0 cb| |ref| |h]; simpl in *.
      - apply bool_decide_eq_true in Hop as ->.
        rewrite (onResult_unavailable r cb w Hi Hb (Hd (win w))).
        rewrite decide_True by done. simpl.
        by rewrite handlers_of_set_handlers.
      - by rewrite app_nil_r.
      - done.
      - by rewrite run_microtask_history, run_microtask_this, app_nil_r.
      - by rewrite app_nil_r. }
    destruct Hstep as (Hh & Hr & Hb' & Hf).
    destruct (IH (step discover w op) Hloc Hb') as [IHh IHr].
    { intros win'. rewrite Hf. apply Hd. }
    change (run discover (op :: ops) w)
      with (run discover ops (step discover w op)).
    rewrite IHh, IHr, Hh, Hr. split; [done|].
    unfold registered. simpl. rewrite <- app_assoc. f_equal.
    by destruct (registers r op).
Qed.

(** After the result: every registration queues one call with the buffered
    port. *)
Lemma run_after_result (r : string) (p : Port) (ops : list Op) (w : World) :
  forallb (local_to r) ops = true ->
  resultBuffer_ (this w) !! r = Some p ->
  history (run discover ops w)
  = history w ++ map (fun cb => (cb, p)) (registered r ops).
Proof.
  revert w. induction ops as [|op ops IH]; intros w Hloc Hb.
  - simpl. by rewrite app_nil_r.
  - simpl in Hloc. apply andb_prop in Hloc as [Hop Hloc].
    assert (Hstep :
      history (step discover w op)
      = history w ++ map (fun cb => (cb, p)) (option_list (registers r op))
      /\ resultBuffer_ (this (step discover w op)) !! r = Some p).
    { destruct op as [r0 cb| |ref| |h]; simpl in *.
      - apply bool_decide_eq_true in Hop as ->.
        rewrite (onResult_buffered r cb p w Hb).
        rewrite decide_True by done. unfold history. simpl.
        by rewrite map_app, app_assoc.
      - by rewrite app_nil_r.
      - done.
      - by rewrite run_microtask_history, run_microtask_this, app_nil_r.
      - by rewrite app_nil_r. }
    destruct Hstep as [Hh Hb'].
    change (run discover (op :: ops) w)
      with (run discover ops (step discover w op)).
    rewrite (IH (step discover w op) Hloc Hb'), Hh.
    rewrite <- app_assoc. f_equal. unfold registered. simpl.
    by destruct (registers r op).
Qed.

(** A result that waits in the captured fragment: the first registration
    discovers it, and every registration is queued once with that one
    port. *)
Lemma run_redirect_result (r : string) (body : PortBody) (ops : list Op)
    (w : World) :
  inherited r = false ->
  forallb (local_to r) ops = true ->
  resultBuffer_ (this w) !! r = None ->
  fragment_ (this w) <> EmptyString ->
  (forall win, discover win (fragment_ (this w)) r = Some body) ->
  exists p,
    port_body p = body
    /\ history (run discover ops w)
       = history w ++ map (fun cb => (cb, p)) (registered r ops).
Proof.
  intros Hi. revert w.
  induction ops as [|op ops IH]; intros w Hloc Hb Hf Hd.
  - exists {| port_ref := 0; port_body := body |}. simpl.
    by rewrite app_nil_r.
  - simpl in Hloc. apply andb_prop in Hloc as [Hop Hloc].
    change (run discover (op :: ops) w)
      with (run discover ops (step discover w op)).
    destruct op as [r0 cb|r0 url target args options|ref| |h]; simpl in Hop.
    + apply bool_decide_eq_true in Hop as ->.
      set (p := {| port_ref := next_ref w; port_body := body |}).
      assert (Hdisc : discoverResult_ discover r w
                = (Some p, with_this (set_result r p) (alloc w))).
      { unfold discoverResult_.
        rewrite (buffered_ordinary r (this w) Hi), Hb, (Hd (win w)).
        by destruct (String.eqb_spec (fragment_ (this w)) EmptyString). }
      exists p. split; [done|].
      rewrite (run_after_result r p); [|done|].
      * unfold registered. simpl. rewrite decide_True by done. simpl.
        rewrite onResult_eq, Hdisc by done. unfold history. simpl.
        by rewrite map_app, <- !app_assoc.
      * simpl. rewrite onResult_eq, Hdisc by done. simpl.
        by apply table_lookup_insert_eq.
    + destruct (IH (open r0 url target args options w) Hloc Hb Hf Hd)
        as (p & Hp & Hh).
      exists p. split; [done|]. exact Hh.
    + done.
    + destruct (IH (run_microtask w) Hloc) as (p & Hp & Hh).
      * by rewrite run_microtask_this.
      * by rewrite run_microtask_this.
      * intros win'. rewrite run_microtask_this. apply Hd.
      * exists p. split; [done|].
        simpl. by rewrite Hh, run_microtask_history.
    + destruct (IH (with_win (set_hash h) w) Hloc Hb Hf Hd) as (p & Hp & Hh).
      exists p. split; [done|]. exact Hh.
Qed.

End Batches.

(** X9. Take a request id that is not a name inherited from
    [Object.prototype], and a page on which no result for it is available,
    neither in the buffer nor in the captured fragment.  Callbacks are
    registered by
    [onResult] for this id (events [before], interleaved at will with
    microtasks, calls of [open] and changes of the hash), the result [port]
    arrives, and more callbacks are registered (events [after]).  Once the
    microtask queue is
    drained, the calls made on top of those the page already owed are: the
    callbacks registered before the arrival, in registration order, and then
    the callbacks registered after it, in registration order; each
    registration is called exactly once and all of them receive [port]. *)
Theorem two_batches_in_registration_order
    (discover : Window -> string -> string -> option PortBody)
    (requestId : string) (port : Port) (before after : list Op) (w : World) :
  inherited requestId = false ->
  forallb (local_to requestId) before = true ->
  forallb (local_to requestId) after = true ->
  resultBuffer_ (this w) !! requestId = None ->
  (forall win, discover win (fragment_ (this w)) requestId = None) ->
  calls (drain (run discover after
                  (consumeResultAll_ requestId port
                     (run discover before w))))
  = calls (drain w)
    ++ map (fun callback => (callback, port))
         (handlers_of requestId (this w) ++ registered requestId before)
    ++ map (fun callback => (callback, port)) (registered requestId after).
Proof.
  intros Hi Hbefore Hafter Hb Hd.
  destruct (run_before_result discover requestId before w Hi Hbefore Hb Hd)
    as [Hh Hr].
  rewrite !drain_history.
  rewrite (run_after_result discover requestId port after); [|done|].
  - rewrite consumeResultAll_history, Hh, Hr. by rewrite <- !app_assoc.
  - rewrite consumeResultAll_eq by done. simpl.
    by apply table_lookup_insert_eq.
Qed.

Lemma two_batches_in_registration_order_witness :
  calls (drain (run test_discover
                  [Microtask; Microtask; OnResult "request1" (spy 3)]
                  (consumeResultAll_ "request1" request1_port
                     (run test_discover
                        [OnResult "request1" (spy 1);
                         OnResult "request1" (spy 2);
                         Open "request1" "https://example.com/file" "_blank"
                           None None]
                        (boot plain_win)))))
  = [(spy 1, request1_port); (spy 2, request1_port); (spy 3, request1_port)].
Proof.
  apply (two_batches_in_registration_order test_discover "request1"
           request1_port
           [OnResult "request1" (spy 1); OnResult "request1" (spy 2);
            Open "request1" "https://example.com/file" "_blank" None None]
           [Microtask; Microtask; OnResult "request1" (spy 3)]
           (boot plain_win)).
  - reflexivity.
  - reflexivity.
  - reflexivity.
  - reflexivity.
  - intros win. reflexivity.
Defined.

(** ** Results of [open] *)

Section OpenResult.

Variable discover : Window -> string -> string -> option PortBody.

Lemma discoverResult_awaiting (r : string) (w : World) :
  awaiting (snd (discoverResult_ discover r w)) = awaiting w.
Proof.
  unfold discoverResult_.
  destruct (buffered r (this w)); [done|].
  destruct (String.eqb _ _); [done|].
  by destruct (discover _ _ _).
Qed.

Lemma discoverResult_next_ref (r : string) (w : World) :
  next_ref w <= next_ref (snd (discoverResult_ discover r w)).
Proof.
  unfold discoverResult_.
  destruct (buffered r (this w)); [done|].
  destruct (String.eqb _ _); [done|].
  destruct (discover _ _ _); simpl; lia.
Qed.

Lemma onResult_awaiting (r : string) (cb : Callback) (w : World) :
  awaiting (onResult discover r cb w) = awaiting w.
Proof.
  destruct (inherited r) eqn:Hi; [by rewrite onResult_inherited|].
  rewrite onResult_eq by done. simpl.
  destruct (fst (discoverResult_ discover r w)); simpl;
    apply discoverResult_awaiting.
Qed.

Lemma onResult_next_ref (r : string) (cb : Callback) (w : World) :
  next_ref w <= next_ref (onResult discover r cb w).
Proof.
  destruct (inherited r) eqn:Hi; [by rewrite onResult_inherited|].
  rewrite onResult_eq by done. simpl.
  destruct (fst (discoverResult_ discover r w)); simpl;
    apply discoverResult_next_ref.
Qed.

Lemma run_microtask_awaiting (w : World) :
  awaiting (run_microtask w) = awaiting w.
Proof.
  unfold run_microtask, run_job. destruct (microtasks w); [done|].
  by destruct (cb_body _ _).
Qed.

Lemma run_microtask_next_ref (w : World) :
  next_ref (run_microtask w) = next_ref w.
Proof.
  unfold run_microtask, run_job. destruct (microtasks w); [done|].
  by destruct (cb_body _ _).
Qed.

Lemma take_awaiting_sublist (ref : nat) (l rest : list (string * Port))
    (r : string) (p : Port) :
  take_awaiting ref l = Some (r, p, rest) ->
  forall (P : string * Port -> Prop), Forall P l -> Forall P rest.
Proof.
  revert rest. induction l as [|[r0 p0] l IH]; intros rest Ht P HP; simpl in Ht.
  - done.
  - apply Forall_cons in HP as [Hp0 HP].
    destruct (Nat.eqb (port_ref p0) ref).
    + by inversion Ht; subst.
    + destruct (take_awaiting ref l) as [[[r1 p1] rest1]|]; [|done].
      inversion Ht; subst. apply Forall_cons. split; [done|].
      by apply IH.
Qed.

Lemma acceptResult_then_awaiting (ref : nat) (w : World) :
  awaiting (acceptResult_then ref w)
  = match take_awaiting ref (awaiting w) with
    | Some (_, _, rest) => rest
    | None => awaiting w
    end.
Proof.
  unfold acceptResult_then.
  destruct (take_awaiting ref (awaiting w)) as [[[r p] rest]|]; [|done].
  by rewrite consumeResultAll_awaiting.
Qed.

Lemma acceptResult_then_next_ref (ref : nat) (w : World) :
  next_ref (acceptResult_then ref w) = next_ref w.
Proof.
  unfold acceptResult_then.
  destruct (take_awaiting ref (awaiting w)) as [[[r p] rest]|]; [|done].
  by rewrite consumeResultAll_next_ref.
Qed.

Lemma step_awaiting_allocated (op : Op) (w : World) :
  awaiting_allocated w -> awaiting_allocated (step discover w op).
Proof.
  unfold awaiting_allocated. intros Hw.
  destruct op as [r cb|r url target args options|ref| |h]; simpl.
  - rewrite onResult_awaiting. eapply Forall_impl; [exact Hw|].
    intros e He. simpl in He. pose proof (onResult_next_ref r cb w). lia.
  - apply Forall_app. split.
    + eapply Forall_impl; [exact Hw|]. intros e He. simpl in *. lia.
    + apply Forall_singleton. simpl. lia.
  - rewrite acceptResult_then_awaiting, acceptResult_then_next_ref.
    destruct (take_awaiting ref (awaiting w)) as [[[r p] rest]|] eqn:Ht;
      [|done].
    by apply (take_awaiting_sublist ref (awaiting w) rest r p Ht).
  - by rewrite run_microtask_awaiting, run_microtask_next_ref.
  - done.
Qed.

Lemma run_awaiting_allocated (ops : list Op) (w : World) :
  awaiting_allocated w -> awaiting_allocated (run discover ops w).
Proof.
  revert w. induction ops as [|op ops IH]; intros w Hw; simpl; [done|].
  by apply IH, step_awaiting_allocated.
Qed.

Lemma boot_awaiting_allocated (win : Window) : awaiting_allocated (boot win).
Proof. by apply Forall_nil. Qed.

Lemma take_awaiting_fresh (ref : nat) (r : string) (p : Port)
    (l : list (string * Port)) :
  port_ref p = ref ->
  Forall (fun entry => port_ref (snd entry) < ref) l ->
  take_awaiting ref (l ++ [(r, p)]) = Some (r, p, l).
Proof.
  intros Hp. induction l as [|[r0 p0] l IH]; intros Hl; simpl.
  - rewrite Hp, Nat.eqb_refl. done.
  - apply Forall_cons in Hl as [Hp0 Hl]. simpl in Hp0.
    destruct (Nat.eqb_spec (port_ref p0) ref) as [Heq|_]; [lia|].
    by rewrite IH.
Qed.

Lemma take_awaiting_app (ref : nat) (r : string) (p : Port)
    (l rest extra : list (string * Port)) :
  take_awaiting ref l = Some (r, p, rest) ->
  take_awaiting ref (l ++ extra) = Some (r, p, rest ++ extra).
Proof.
  revert rest. induction l as [|[r0 p0] l IH]; intros rest Ht; simpl in *.
  - done.
  - destruct (Nat.eqb (port_ref p0) ref).
    + by inversion Ht; subst.
    + destruct (take_awaiting ref l) as [[[r1 p1] rest1]|]; [|done].
      inversion Ht; subst. by rewrite (IH rest1).
Qed.

Lemma take_awaiting_other (ref ref' : nat) (r r' : string) (p p' : Port)
    (l rest rest' : list (string * Port)) :
  ref <> ref' ->
  take_awaiting ref l = Some (r, p, rest) ->
  take_awaiting ref' l = Some (r', p', rest') ->
  exists rest'', take_awaiting ref rest' = Some (r, p, rest'').
Proof.
  intros Hne. revert rest rest'.
  induction l as [|[r0 p0] l IH]; intros rest rest' Ht Ht'; simpl in *.
  - done.
  - destruct (Nat.eqb_spec (port_ref p0) ref) as [He|He];
      destruct (Nat.eqb_spec (port_ref p0) ref') as [He'|He'].
    + lia.
    + destruct (take_awaiting ref' l) as [[[r1 p1] rest1]|]; [|done].
      inversion Ht; inversion Ht'; subst. simpl.
      rewrite Nat.eqb_refl. by eexists.
    + destruct (take_awaiting ref l) as [[[r1 p1] rest1]|] eqn:Hl; [|done].
      inversion Ht; inversion Ht'; subst. by eexists.
    + destruct (take_awaiting ref l) as [[[r1 p1] rest1]|]; [|done].
      destruct (take_awaiting ref' l) as [[[r2 p2] rest2]|]; [|done].
      inversion Ht; inversion Ht'; subst.
      destruct (IH rest1 rest2 eq_refl eq_refl) as [rest'' Hr].
      simpl. destruct (Nat.eqb_spec (port_ref p0) ref) as [|_]; [done|].
      rewrite Hr. by eexists.
Qed.

Lemma step_waits_for (ref : nat) (r : string) (p : Port) (op : Op)
    (w : World) :
  op <> AcceptResult ref ->
  waits_for ref r p w -> waits_for ref r p (step discover w op).
Proof.
  intros Hop [rest Hw]. unfold waits_for.
  destruct op as [r0 cb|r0 url target args options|ref'| |h]; simpl.
  - rewrite onResult_awaiting. by exists rest.
  - eexists. by apply take_awaiting_app.
  - rewrite acceptResult_then_awaiting.
    destruct (take_awaiting ref' (awaiting w)) as [[[r1 p1] rest1]|] eqn:Ht.
    + apply (take_awaiting_other ref ref' r r1 p p1 (awaiting w) rest rest1);
        [congruence|done..].
    + by exists rest.
  - rewrite run_microtask_awaiting. by exists rest.
  - by exists rest.
Qed.

Lemma run_waits_for (ref : nat) (r : string) (p : Port) (ops : list Op)
    (w : World) :
  AcceptResult ref ∉ ops ->
  waits_for ref r p w -> waits_for ref r p (run discover ops w).
Proof.
  revert w. induction ops as [|op ops IH]; intros w Hops Hw; simpl; [done|].
  apply not_elem_of_cons in Hops as [Hop Hops].
  apply IH; [done|]. by apply step_waits_for.
Qed.

End OpenResult.

(** X11. [open] has no return value, so no promise reaches the caller: in
    the embedding the method maps a page to a page and nothing else.  The
    call itself delivers nothing and leaves the manager's tables alone; it
    only creates the port and waits for its result.  When [requestId] is not
    a name inherited from [Object.prototype] and, after any further events,
    the result of that port arrives, the manager queues one call with this
    port for every callback registered for [requestId] at that moment, calls
    nothing synchronously, and stores the port in the result buffer, whether
    or not any callback is registered.  (The second hypothesis holds on
    every page that events lead to, see [run_awaiting_allocated].) *)
Theorem open_result_is_dispatched_and_buffered
    (discover : Window -> string -> string -> option PortBody)
    (requestId url target : string) (opt_args opt_options : option Value)
    (ops : list Op) (w : World) :
  inherited requestId = false ->
  awaiting_allocated w ->
  AcceptResult (next_ref w) ∉ ops ->
  this (open requestId url target opt_args opt_options w) = this w
  /\ microtasks (open requestId url target opt_args opt_options w)
     = microtasks w
  /\ calls (open requestId url target opt_args opt_options w) = calls w
  /\ let port :=
       {| port_ref := next_ref w;
          port_body :=
            ActivityWindowPort requestId url target opt_args opt_options |} in
     let w2 :=
       run discover ops (open requestId url target opt_args opt_options w) in
     let w3 := acceptResult_then (next_ref w) w2 in
     microtasks w3
     = microtasks w2 ++ map (job_of port) (handlers_of requestId (this w2))
     /\ calls w3 = calls w2
     /\ resultBuffer_ (this w3) = <[requestId := port]> (resultBuffer_ (this w2))
     /\ resultBuffer_ (this w3) !! requestId = Some port.
Proof.
  intros Hi Halloc Hops. do 3 (split; [done|]). intros port w2 w3.
  assert (Hwait : waits_for (next_ref w) requestId port w2).
  { apply run_waits_for; [done|]. exists (awaiting w).
    by apply take_awaiting_fresh. }
  destruct Hwait as [rest Hrest].
  assert (Hw3 : w3 = consumeResultAll_ requestId port (with_awaiting rest w2)).
  { unfold w3, acceptResult_then. by rewrite Hrest. }
  rewrite Hw3, consumeResultAll_eq by done. simpl.
  repeat split. by apply table_lookup_insert_eq.
Qed.

Lemma open_result_is_dispatched_and_buffered_witness :
  microtasks (acceptResult_then 0
                (run test_discover [OnResult "request1" (spy 1)]
                   (open "request1" "https://example.com/file" "_blank"
                      None None (boot plain_win))))
  = [job_of request1_port (spy 1)]
  /\ resultBuffer_
       (this (acceptResult_then 0
                (run test_discover []
                   (open "request1" "https://example.com/file" "_blank"
                      None None (boot plain_win)))))
       !! "request1" = Some request1_port.
Proof.
  split.
  - refine (proj1 (proj2 (proj2 (proj2
      (open_result_is_dispatched_and_buffered test_discover "request1"
         "https://example.com/file" "_blank" None None
         [OnResult "request1" (spy 1)] (boot plain_win) eq_refl _ _))))).
    + apply Forall_nil_2.
    + intros Hin. apply list_elem_of_In in Hin. simpl in Hin.
      destruct Hin as [Hin|[]]. discriminate Hin.
  - refine (proj2 (proj2 (proj2 (proj2 (proj2 (proj2
      (open_result_is_dispatched_and_buffered test_discover "request1"
         "https://example.com/file" "_blank" None None
         [] (boot plain_win) eq_refl _ _))))))).
    + apply Forall_nil_2.
    + apply not_elem_of_nil.
Defined.

(** ** Hosts and iframe ports *)

(** C5. [connectHost] chooses the host class from the window alone: an
    iframe host when [top] is not the window itself; otherwise a popup host
    when there is an opener that is not closed; otherwise, with no opener or
    a closed one, a redirect host.  What it returns is the promise of that
    host's [connect(opt_request)]. *)
Theorem connectHost_selects_host
    (host_connect : ActivityHost -> option HostRequest -> Promise ActivityHost)
    (win_ : Window) (opt_request : option HostRequest) :
  (top win_ <> win_ref win_ ->
   connectHost host_connect win_ opt_request
   = host_connect (ActivityIframeHost win_) opt_request)
  /\ (top win_ = win_ref win_ ->
      forall o, opener win_ = Some o -> closed o = false ->
      connectHost host_connect win_ opt_request
      = host_connect (ActivityWindowPopupHost win_) opt_request)
  /\ (top win_ = win_ref win_ ->
      opener win_ = None
      \/ (exists o, opener win_ = Some o /\ closed o = true) ->
      connectHost host_connect win_ opt_request
      = host_connect (ActivityWindowRedirectHost win_) opt_request).
Proof.
  unfold connectHost. repeat split.
  - intros Htop. by destruct (Nat.eqb_spec (top win_) (win_ref win_)).
  - intros Htop o Ho Hc. rewrite Htop, Nat.eqb_refl, Ho, Hc. done.
  - intros Htop Hop. rewrite Htop, Nat.eqb_refl. simpl.
    destruct Hop as [->|(o & -> & ->)]; done.
Qed.

Lemma connectHost_selects_host_witness :
  connectHost test_host_connect framed_win None
  = Fulfilled (ActivityIframeHost framed_win)
  /\ connectHost test_host_connect popup_win None
     = Fulfilled (ActivityWindowPopupHost popup_win)
  /\ connectHost test_host_connect plain_win None
     = Fulfilled (ActivityWindowRedirectHost plain_win)
  /\ connectHost test_host_connect orphan_win None
     = Fulfilled (ActivityWindowRedirectHost orphan_win).
Proof.
  split; [|split; [|split]].
  - apply (proj1 (connectHost_selects_host test_host_connect framed_win None)).
    simpl. lia.
  - apply (proj1 (proj2
      (connectHost_selects_host test_host_connect popup_win None))
      eq_refl {| closed := false |}); reflexivity.
  - apply (proj2 (proj2
      (connectHost_selects_host test_host_connect plain_win None)) eq_refl).
    left. reflexivity.
  - apply (proj2 (proj2
      (connectHost_selects_host test_host_connect orphan_win None)) eq_refl).
    right. exists {| closed := true |}. split; reflexivity.
Defined.

(** C8. [openIframe] constructs the port from the given frame, url and
    arguments and starts one handshake on it: the page has made exactly one
    more attempt when the method returns, whatever the outcome.  The promise
    it returns is fulfilled with that very port when this attempt succeeds,
    is rejected with the attempt's own reason when it fails, and stays
    pending while the attempt does; no later attempt is consulted. *)
Theorem openIframe_connects_once
    (connect : ActivityIframePort -> nat -> Promise unit)
    (iframe : nat) (url : string) (opt_args : option Value) (attempts : nat) :
  let port := {| iframe_ := iframe; url_ := url; args_ := opt_args |} in
  snd (openIframe connect iframe url opt_args attempts) = S attempts
  /\ (connect port attempts = Fulfilled tt ->
      fst (openIframe connect iframe url opt_args attempts) = Fulfilled port)
  /\ (forall reason, connect port attempts = Rejected reason ->
      fst (openIframe connect iframe url opt_args attempts) = Rejected reason)
  /\ (connect port attempts = Pending ->
      fst (openIframe connect iframe url opt_args attempts) = Pending).
Proof.
  intros port. unfold openIframe. fold port. simpl.
  split; [done|]. repeat split.
  - by intros ->.
  - by intros reason ->.
  - by intros ->.
Qed.

Lemma openIframe_connects_once_witness :
  openIframe flaky_connect 7 "https://example.com/iframe"
    (Some (VObj [("a", VNum 1)])) 0
  = (Rejected "intentional", 1)
  /\ fst (openIframe flaky_connect 7 "https://example.com/iframe" None 1)
     = Fulfilled
         {| iframe_ := 7; url_ := "https://example.com/iframe";
            args_ := None |}.
Proof.
  split.
  - apply injective_projections.
    + apply (proj1 (proj2 (proj2
        (openIframe_connects_once flaky_connect 7 "https://example.com/iframe"
           (Some (VObj [("a", VNum 1)])) 0))) "intentional").
      reflexivity.
    + apply (proj1
        (openIframe_connects_once flaky_connect 7 "https://example.com/iframe"
           (Some (VObj [("a", VNum 1)])) 0)).
  - apply (proj1 (proj2
      (openIframe_connects_once flaky_connect 7 "https://example.com/iframe"
         None 1))).
    reflexivity.
Defined.

(** ** The captured fragment *)

Section Snapshot.

Variable discover : Window -> string -> string -> option PortBody.

(** The helper does not look at [location.hash] of the window it is given. *)
Hypothesis discover_ignores_hash :
  forall hash win fragment requestId,
    discover (set_hash hash win) fragment requestId
    = discover win fragment requestId.

Lemma discoverResult_with_hash (hash : string) (r : string) (w : World) :
  discoverResult_ discover r (with_win (set_hash hash) w)
  = (fst (discoverResult_ discover r w),
     with_win (set_hash hash) (snd (discoverResult_ discover r w))).
Proof.
  unfold discoverResult_. simpl.
  destruct (buffered r (this w)); [done|].
  destruct (String.eqb _ _); [done|].
  rewrite discover_ignores_hash. by destruct (discover _ _ _).
Qed.

Lemma onResult_with_hash (hash : string) (r : string) (cb : Callback)
    (w : World) :
  onResult discover r cb (with_win (set_hash hash) w)
  = with_win (set_hash hash) (onResult discover r cb w).
Proof.
  destruct (inherited r) eqn:Hi.
  { by rewrite !onResult_inherited. }
  rewrite !onResult_eq by done. simpl.
  rewrite discoverResult_with_hash. simpl.
  by destruct (fst (discoverResult_ discover r w)).
Qed.

Lemma acceptResult_then_with_hash (hash : string) (ref : nat) (w : World) :
  acceptResult_then ref (with_win (set_hash hash) w)
  = with_win (set_hash hash) (acceptResult_then ref w).
Proof.
  unfold acceptResult_then. simpl.
  destruct (take_awaiting ref (awaiting w)) as [[[r p] rest]|]; [|done].
  destruct (inherited r) eqn:Hi.
  - by rewrite !consumeResultAll_inherited.
  - by rewrite !consumeResultAll_eq.
Qed.

Lemma run_microtask_with_hash (hash : string) (w : World) :
  run_microtask (with_win (set_hash hash) w)
  = with_win (set_hash hash) (run_microtask w).
Proof.
  unfold run_microtask, run_job. simpl.
  destruct (microtasks w) as [|j q]; [done|].
  by destruct (cb_body _ _).
Qed.

Lemma step_with_hash (hash : string) (op : Op) (w : World) :
  keeps_hash op = true ->
  step discover (with_win (set_hash hash) w) op
  = with_win (set_hash hash) (step discover w op).
Proof.
  destruct op as [r cb|r url target args options|ref| |h]; simpl; intros Hk.
  - apply onResult_with_hash.
  - done.
  - apply acceptResult_then_with_hash.
  - apply run_microtask_with_hash.
  - done.
Qed.

(** Whatever the page does to its hash, the run is the run without these
    changes, up to the hash of the window. *)
Lemma run_strip_hash (hash : string) (ops : list Op) (w : World) :
  with_win (set_hash hash) (run discover ops w)
  = run discover (strip_hash ops) (with_win (set_hash hash) w).
Proof.
  revert w. induction ops as [|op ops IH]; intros w; [done|].
  change (run discover (op :: ops) w)
    with (run discover ops (step discover w op)).
  rewrite IH. unfold strip_hash. simpl.
  destruct (keeps_hash op) eqn:Hk.
  - simpl. by rewrite step_with_hash.
  - by destruct op.
Qed.

Lemma strip_hash_same_run (ops1 ops2 : list Op) (w : World) :
  strip_hash ops1 = strip_hash ops2 ->
  with_win (set_hash EmptyString) (run discover ops1 w)
  = with_win (set_hash EmptyString) (run discover ops2 w).
Proof. intros Hs. by rewrite !run_strip_hash, Hs. Qed.

End Snapshot.

Lemma discoverRedirectPort_ignores_hash
    (parseResponse : string -> option RedirectResponse)
    (hash : string) (win : Window) (fragment requestId : string) :
  discoverRedirectPort parseResponse (set_hash hash win) fragment requestId
  = discoverRedirectPort parseResponse win fragment requestId.
Proof. done. Qed.

Lemma step_fragment
    (discover : Window -> string -> string -> option PortBody)
    (op : Op) (w : World) :
  fragment_ (this (step discover w op)) = fragment_ (this w).
Proof.
  destruct op as [r cb|r url target args options|ref| |h]; simpl.
  - apply onResult_fragment.
  - done.
  - unfold acceptResult_then.
    destruct (take_awaiting ref (awaiting w)) as [[[r p] rest]|]; [|done].
    by rewrite consumeResultAll_fragment.
  - by rewrite run_microtask_this.
  - done.
Qed.

Lemma run_fragment
    (discover : Window -> string -> string -> option PortBody)
    (ops : list Op) (w : World) :
  fragment_ (this (run discover ops w)) = fragment_ (this w).
Proof.
  revert w. induction ops as [|op ops IH]; intros w; simpl; [done|].
  by rewrite IH, step_fragment.
Qed.

(** C9. Redirect discovery reads the fragment that the constructor captured
    and the manager's own tables, never [location.hash] again.  Provided
    [discoverRedirectPort] works from the fragment it is handed and not from
    [location.hash] of the window, the captured fragment stays what it was,
    and two runs of the same page that differ only in the changes made to
    [location.hash] leave the same manager, the same microtask queue and the
    same calls, and [discoverResult_] then finds the same port, or nothing,
    in both. *)
Theorem discovery_ignores_later_hash_changes
    (discover : Window -> string -> string -> option PortBody)
    (ops1 ops2 : list Op) (w : World) :
  (forall hash win fragment requestId,
      discover (set_hash hash win) fragment requestId
      = discover win fragment requestId) ->
  strip_hash ops1 = strip_hash ops2 ->
  fragment_ (this (run discover ops1 w)) = fragment_ (this w)
  /\ this (run discover ops1 w) = this (run discover ops2 w)
  /\ microtasks (run discover ops1 w) = microtasks (run discover ops2 w)
  /\ calls (run discover ops1 w) = calls (run discover ops2 w)
  /\ forall requestId,
       fst (discoverResult_ discover requestId (run discover ops1 w))
       = fst (discoverResult_ discover requestId (run discover ops2 w)).
Proof.
  intros Hd Hs.
  pose proof (strip_hash_same_run discover Hd ops1 ops2 w Hs) as He.
  split; [apply run_fragment|].
  split; [exact (f_equal this He)|].
  split; [exact (f_equal microtasks He)|].
  split; [exact (f_equal calls He)|].
  intros requestId.
  pose proof (discoverResult_with_hash discover Hd EmptyString requestId)
    as Hr.
  pose proof (f_equal fst (Hr (run discover ops1 w))) as H1.
  pose proof (f_equal fst (Hr (run discover ops2 w))) as H2.
  simpl in H1, H2. by rewrite <- H1, <- H2, He.
Qed.

Lemma discovery_ignores_later_hash_changes_witness :
  fst (discoverResult_ test_discover "request1"
         (run test_discover
            [SetHash request1_fragment; OnResult "request1" (spy 1)]
            (boot plain_win)))
  = fst (discoverResult_ test_discover "request1"
           (run test_discover [OnResult "request1" (spy 1)]
              (boot plain_win))).
Proof.
  apply (proj2 (proj2 (proj2 (proj2
    (discovery_ignores_later_hash_changes test_discover
       [SetHash request1_fragment; OnResult "request1" (spy 1)]
       [OnResult "request1" (spy 1)] (boot plain_win)
       (fun hash win fragment requestId => eq_refl) eq_refl)))) "request1").
Defined.

(** ** Redirect results and their request ids *)

Lemma elem_of_map_inv {A B : Type} (f : A -> B) (l : list A) (y : B) :
  y ∈ map f l -> exists x, y = f x /\ x ∈ l.
Proof.
  intros H. apply list_elem_of_In, in_map_iff in H as (x & Hx & Hin).
  exists x. split; [done|]. by apply list_elem_of_In.
Qed.

Lemma take_awaiting_elem (ref : nat) (l rest : list (string * Port))
    (r : string) (p : Port) :
  take_awaiting ref l = Some (r, p, rest) -> (r, p) ∈ l.
Proof.
  revert rest. induction l as [|[r0 p0] l IH]; intros rest Ht; simpl in Ht.
  - done.
  - destruct (Nat.eqb (port_ref p0) ref).
    + inversion Ht; subst. apply list_elem_of_here.
    + destruct (take_awaiting ref l) as [[[r1 p1] rest1]|]; [|done].
      inversion Ht; subst. apply list_elem_of_further. by eapply IH.
Qed.

Section RedirectTags.

Variable parseResponse : string -> option RedirectResponse.

Local Abbreviation D := (discoverRedirectPort parseResponse).

(** The helper only answers with a result whose tag is the id asked for. *)
Lemma discoverRedirectPort_tag (win : Window) (fragment r : string)
    (body : PortBody) :
  discoverRedirectPort parseResponse win fragment r = Some body ->
  exists response,
    body = ActivityWindowRedirectPort response
    /\ parseResponse fragment = Some response
    /\ resp_requestId response = r.
Proof.
  unfold discoverRedirectPort. intros H.
  destruct (parseResponse fragment) as [response|]; [|done].
  destruct (String.eqb_spec (resp_requestId response) r); [|done].
  inversion H; subst. by exists response.
Qed.








End RedirectTags.



(** ** The result buffer *)

Section Buffer.

Variable discover : Window -> string -> string -> option PortBody.

Lemma discoverResult_keeps (r r' : string) (p : Port) (w : World) :
  resultBuffer_ (this w) !! r = Some p ->
  resultBuffer_ (this (snd (discoverResult_ discover r' w))) !! r = Some p.
Proof.
  intros Hb.
  destruct (discoverResult_state discover r' w)
    as [->|(_ & Hb' & p' & _ & ->)]; [done|].
  simpl. rewrite table_lookup_insert_ne; [done|]. congruence.
Qed.

Lemma onResult_keeps (r r' : string) (cb : Callback) (p : Port) (w : World) :
  resultBuffer_ (this w) !! r = Some p ->
  resultBuffer_ (this (onResult discover r' cb w)) !! r = Some p.
Proof.
  intros Hb. rewrite onResult_result_buffer.
  by apply discoverResult_keeps.
Qed.

(** The entry of an id that has one, after [consumeResultAll_]. *)
Lemma consumeResultAll_buffer (r r' : string) (p p' : Port) (w : World) :
  resultBuffer_ (this w) !! r = Some p ->
  resultBuffer_ (this (consumeResultAll_ r' p' w)) !! r
  = if decide (r' = r) then Some p' else Some p.
Proof.
  intros Hb. rewrite consumeResultAll_lookup, Hb.
  by rewrite (table_lookup_Some _ r p Hb).
Qed.

Lemma step_keeps (r : string) (p : Port) (op : Op) (w : World) :
  (forall ref, op <> AcceptResult ref) ->
  resultBuffer_ (this w) !! r = Some p ->
  resultBuffer_ (this (step discover w op)) !! r = Some p.
Proof.
  intros Hop Hb. destruct op as [r' cb|r' url target args options|ref| |h];
    simpl.
  - by apply onResult_keeps.
  - done.
  - by destruct (Hop ref).
  - by rewrite run_microtask_this.
  - done.
Qed.

(** An event keeps the entry, unless it is the arrival of a result for this
    very request id, which puts the arriving port in its place. *)
Lemma step_keeps_or_replaces (r : string) (p : Port) (op : Op) (w : World) :
  resultBuffer_ (this w) !! r = Some p ->
  resultBuffer_ (this (step discover w op)) !! r = Some p
  \/ (exists ref p' rest,
        op = AcceptResult ref
        /\ take_awaiting ref (awaiting w) = Some (r, p', rest)
        /\ resultBuffer_ (this (step discover w op)) !! r = Some p').
Proof.
  intros Hb. destruct op as [r' cb|r' url target args options|ref| |h].
  - left. by apply step_keeps.
  - left. by apply step_keeps.
  - simpl. unfold acceptResult_then.
    destruct (take_awaiting ref (awaiting w)) as [[[r1 p1] rest]|] eqn:Ht;
      [|by left].
    rewrite (consumeResultAll_buffer r r1 p p1) by done.
    case_decide as Hr.
    + subst r1. right. by exists ref, p1, rest.
    + by left.
  - left. by apply step_keeps.
  - left. by apply step_keeps.
Qed.

Lemma run_keeps (r : string) (p : Port) (ops : list Op) (w : World) :
  (forall ref, AcceptResult ref ∉ ops) ->
  resultBuffer_ (this w) !! r = Some p ->
  resultBuffer_ (this (run discover ops w)) !! r = Some p.
Proof.
  revert w. induction ops as [|op ops IH]; intros w Hops Hb; simpl; [done|].
  apply IH.
  - intros ref Hin. apply (Hops ref). by apply list_elem_of_further.
  - apply step_keeps; [|done]. intros ref ->.
    apply (Hops ref), list_elem_of_here.
Qed.

Lemma run_retains (r : string) (ops : list Op) (w : World) :
  is_Some (resultBuffer_ (this w) !! r) ->
  is_Some (resultBuffer_ (this (run discover ops w)) !! r).
Proof.
  revert w. induction ops as [|op ops IH]; intros w [p Hb]; simpl;
    [by exists p|].
  apply IH.
  destruct (step_keeps_or_replaces r p op w Hb) as [H|(_ & p' & _ & _ & _ & H)];
    by eexists.
Qed.

End Buffer.

(** C2, as the code has it.  Once a port is buffered for [requestId]:
    [discoverResult_], for any request id, leaves that entry as it is and,
    asked for [requestId], returns the buffered port; an event either keeps
    the entry or is the arrival of a result for [requestId] itself, which
    stores the arriving port in its place; through events among which no
    result arrives the buffered port stays the same object; after any events
    whatsoever the buffer still holds a port for [requestId]; and
    [consumeResultAll_] stores the arriving port under its own request id,
    which replaces the entry when that id is [requestId] and leaves it alone
    otherwise. *)
Theorem buffered_result_is_kept_until_replaced
    (discover : Window -> string -> string -> option PortBody)
    (requestId : string) (port : Port) (w : World) :
  resultBuffer_ (this w) !! requestId = Some port ->
  (forall requestId',
      resultBuffer_ (this (snd (discoverResult_ discover requestId' w)))
        !! requestId = Some port)
  /\ fst (discoverResult_ discover requestId w) = Some port
  /\ (forall op,
        resultBuffer_ (this (step discover w op)) !! requestId = Some port
        \/ (exists ref port' rest,
              op = AcceptResult ref
              /\ take_awaiting ref (awaiting w) = Some (requestId, port', rest)
              /\ resultBuffer_ (this (step discover w op)) !! requestId
                 = Some port'))
  /\ (forall ops, (forall ref, AcceptResult ref ∉ ops) ->
        resultBuffer_ (this (run discover ops w)) !! requestId = Some port)
  /\ (forall ops,
        is_Some (resultBuffer_ (this (run discover ops w)) !! requestId))
  /\ (forall requestId' port',
        resultBuffer_ (this (consumeResultAll_ requestId' port' w))
          !! requestId
        = if decide (requestId' = requestId) then Some port' else Some port).
Proof.
  intros Hb. split; [|split; [|split; [|split; [|split]]]].
  - intros requestId'. by apply discoverResult_keeps.
  - by rewrite (discoverResult_hit discover requestId port w Hb).
  - intros op. by apply step_keeps_or_replaces.
  - intros ops Hops. by apply run_keeps.
  - intros ops. apply run_retains. by exists port.
  - intros requestId' port'. by apply consumeResultAll_buffer.
Qed.

Lemma buffered_result_is_kept_until_replaced_witness :
  resultBuffer_
    (this (run test_discover
             [OnResult "request1" (spy 1); Microtask; SetHash request1_fragment]
             reopened_page))
    !! "request1" = Some request1_port.
Proof.
  refine (proj1 (proj2 (proj2 (proj2
    (buffered_result_is_kept_until_replaced test_discover "request1"
       request1_port reopened_page _))))
    [OnResult "request1" (spy 1); Microtask; SetHash request1_fragment] _).
  - reflexivity.
  - intros ref Hin. apply list_elem_of_In in Hin. simpl in Hin.
    destruct Hin as [Hin|[Hin|[Hin|[]]]]; discriminate Hin.
Defined.

(** The claim C2 as the specification words it fails: the second activity
    that the page opens under 'request1' delivers its result after the first
    one did, and [consumeResultAll_] puts the second port in the place of the
    first, a different object. *)
Lemma buffered_result_is_overwritten :
  resultBuffer_ (this reopened_page) !! "request1" = Some request1_port
  /\ resultBuffer_ (this (step test_discover reopened_page (AcceptResult 1)))
       !! "request1" = Some request1_port_again
  /\ request1_port <> request1_port_again.
Proof.
  split; [reflexivity|]. split; [reflexivity|]. discriminate.
Qed.

(** * Further properties of the manager *)

(** ** The handler table *)

Lemma step_handlers_of
    (discover : Window -> string -> string -> option PortBody)
    (r : string) (op : Op) (w : World) :
  handlers_of r (this (step discover w op))
  = handlers_of r (this w)
    ++ (if inherited r then [] else option_list (registers r op)).
Proof.
  assert (Hnil : handlers_of r (this w)
                 = handlers_of r (this w)
                   ++ (if inherited r then [] else [])).
  { destruct (inherited r); by rewrite app_nil_r. }
  destruct op as [r0 cb|r0 url target args options|ref| |h]; simpl.
  - rewrite onResult_handlers_of. case_decide as Hr; [by subst r0|].
    exact Hnil.
  - exact Hnil.
  - unfold handlers_of at 1. rewrite acceptResult_then_handlers. exact Hnil.
  - rewrite run_microtask_this. exact Hnil.
  - exact Hnil.
Qed.

Lemma run_handlers_of
    (discover : Window -> string -> string -> option PortBody)
    (r : string) (ops : list Op) (w : World) :
  handlers_of r (this (run discover ops w))
  = handlers_of r (this w) ++ (if inherited r then [] else registered r ops).
Proof.
  revert w. induction ops as [|op ops IH]; intros w.
  - simpl. destruct (inherited r); by rewrite app_nil_r.
  - change (run discover (op :: ops) w)
      with (run discover ops (step discover w op)).
    rewrite IH, step_handlers_of, <- app_assoc. f_equal.
    destruct (inherited r); [done|].
    unfold registered. simpl. by destruct (registers r op).
Qed.

(** X1. The handler list of a request id is the log of the calls of
    [onResult] for it: whatever the events, it is the list the page started
    with followed by the callbacks passed to [onResult] for that id, in call
    order, a callback registered twice standing twice.  Nothing else adds,
    removes, reorders or deduplicates handlers.  Under a name inherited from
    [Object.prototype] no call of [onResult] registers anything, and the
    list stays empty. *)
Theorem handlers_are_the_registration_log
    (discover : Window -> string -> string -> option PortBody)
    (requestId : string) (ops : list Op) (w : World) :
  handlers_of requestId (this (run discover ops w))
  = handlers_of requestId (this w)
    ++ (if inherited requestId then [] else registered requestId ops).
Proof. apply run_handlers_of. Qed.

(** ** Discovery *)

(** X2. [discoverResult_] caches what it finds: asked a second time for the
    same request id, it returns the same port object as the first time and
    leaves the page exactly as the first call left it, so that no second port
    is constructed from the fragment. *)
Theorem discoverResult_is_cached
    (discover : Window -> string -> string -> option PortBody)
    (requestId : string) (w : World) :
  discoverResult_ discover requestId
    (snd (discoverResult_ discover requestId w))
  = (fst (discoverResult_ discover requestId w),
     snd (discoverResult_ discover requestId w)).
Proof.
  destruct (discoverResult_ discover requestId w) as [[p|] w'] eqn:Hd.
  - simpl. pose proof (discoverResult_buffered discover requestId w) as Hb.
    rewrite Hd in Hb. simpl in Hb. unfold discoverResult_. by rewrite Hb.
  - simpl. assert (w' = w) as ->; [|done].
    revert Hd. unfold discoverResult_.
    destruct (buffered requestId (this w)); [done|].
    destruct (String.eqb _ _); [by intros [= <-]|].
    destruct (discover _ _ _); [done|]. by intros [= <-].
Qed.

(** ** Pages without a fragment *)

Lemma discoverResult_empty_fragment
    (discover : Window -> string -> string -> option PortBody)
    (r : string) (w : World) :
  fragment_ (this w) = EmptyString ->
  discoverResult_ discover r w = (buffered r (this w), w).
Proof.
  intros Hf. unfold discoverResult_. rewrite Hf. simpl.
  by destruct (buffered r (this w)).
Qed.

Lemma step_empty_fragment
    (discover1 discover2 : Window -> string -> string -> option PortBody)
    (op : Op) (w : World) :
  fragment_ (this w) = EmptyString ->
  step discover1 w op = step discover2 w op.
Proof.
  intros Hf. destruct op as [r cb|r url target args options|ref| |h]; simpl;
    [|done..].
  unfold onResult.
  destruct (read (requestHandlers_ (this w)) r); [|done|];
    unfold onResult_push; by rewrite !discoverResult_empty_fragment.
Qed.

(** X3. On a page that was loaded without a fragment, [discoverRedirectPort]
    is never consulted: whatever the events, the page ends in the same state
    with any two helpers, and [discoverResult_] returns just what the read
    of the buffer finds (the stored port, the inherited member under an
    inherited name, or nothing), leaving the page as it is. *)
Theorem empty_fragment_never_consults_helper
    (discover1 discover2 : Window -> string -> string -> option PortBody)
    (ops : list Op) (w : World) :
  fragment_ (this w) = EmptyString ->
  run discover1 ops w = run discover2 ops w
  /\ forall requestId,
       discoverResult_ discover1 requestId (run discover1 ops w)
       = (buffered requestId (this (run discover1 ops w)),
          run discover1 ops w).
Proof.
  intros Hf. split.
  - revert w Hf. induction ops as [|op ops IH]; intros w Hf; [done|].
    change (run discover1 ops (step discover1 w op)
            = run discover2 ops (step discover2 w op)).
    rewrite (step_empty_fragment discover1 discover2 op w Hf).
    apply IH. by rewrite step_fragment.
  - intros requestId. apply discoverResult_empty_fragment.
    by rewrite run_fragment.
Qed.

Lemma empty_fragment_never_consults_helper_witness :
  run test_discover
    [OnResult "request1" (spy 1); SetHash request1_fragment;
     OnResult "request1" (spy 2); Microtask]
    (boot plain_win)
  = run eager_discover
      [OnResult "request1" (spy 1); SetHash request1_fragment;
       OnResult "request1" (spy 2); Microtask]
      (boot plain_win).
Proof.
  apply (proj1 (empty_fragment_never_consults_helper test_discover
                  eager_discover
                  [OnResult "request1" (spy 1); SetHash request1_fragment;
                   OnResult "request1" (spy 2); Microtask]
                  (boot plain_win) eq_refl)).
Defined.

(** ** Pages without a result *)

Section NoResult.

Variable discover : Window -> string -> string -> option PortBody.

Lemma step_without_result (op : Op) (w : World) :
  resultBuffer_ (this w) = ∅ ->
  (fragment_ (this w) = EmptyString
   \/ forall win r, discover win (fragment_ (this w)) r = None) ->
  (forall ref, op <> AcceptResult ref) ->
  history (step discover w op) = history w
  /\ resultBuffer_ (this (step discover w op)) = ∅.
Proof.
  intros Hb Hf Hop.
  destruct op as [r cb|r url target args options|ref| |h]; simpl.
  - destruct (inherited r) eqn:Hi; [by rewrite onResult_inherited|].
    assert (Hd : discoverResult_ discover r w = (None, w)).
    { destruct Hf as [Hf|Hf].
      - rewrite discoverResult_empty_fragment by done.
        by rewrite buffered_ordinary, Hb, table_lookup_empty.
      - apply discoverResult_none;
          [done|by rewrite Hb, table_lookup_empty|apply Hf]. }
    rewrite onResult_eq, Hd by done. by simpl.
  - done.
  - by destruct (Hop ref).
  - by rewrite run_microtask_history, run_microtask_this.
  - done.
Qed.

End NoResult.

(** X4. No result, no delivery.  On a page whose buffer is empty and whose
    captured fragment is empty or carries no result, as long as no result of
    an opened port arrives (as in redirect mode, where it never does), no
    callback is called or queued to be called, however many callbacks are
    registered and activities opened, and the buffer stays empty. *)
Theorem no_result_no_delivery
    (discover : Window -> string -> string -> option PortBody)
    (ops : list Op) (w : World) :
  resultBuffer_ (this w) = ∅ ->
  (fragment_ (this w) = EmptyString
   \/ forall win r, discover win (fragment_ (this w)) r = None) ->
  (forall ref, AcceptResult ref ∉ ops) ->
  history (run discover ops w) = history w
  /\ calls (drain (run discover ops w)) = calls (drain w)
  /\ resultBuffer_ (this (run discover ops w)) = ∅.
Proof.
  intros Hb Hf Hops.
  assert (H : history (run discover ops w) = history w
              /\ resultBuffer_ (this (run discover ops w)) = ∅).
  { revert w Hb Hf. induction ops as [|op ops IH]; intros w Hb Hf; [done|].
    change (run discover (op :: ops) w)
      with (run discover ops (step discover w op)).
    destruct (step_without_result discover op w Hb Hf) as [Hh Hb'].
    { intros ref ->. apply (Hops ref), list_elem_of_here. }
    destruct (IH (fun ref Hin => Hops ref (list_elem_of_further _ _ _ Hin))
                (step discover w op) Hb') as [IHh IHb].
    { by rewrite step_fragment. }
    by rewrite IHh, Hh. }
  destruct H as [Hh Hb']. by rewrite !drain_history.
Qed.

Lemma no_result_no_delivery_witness :
  calls (drain (run test_discover
                  [OnResult "request1" (spy 1);
                   Open "request1" "https://example.com/file" "_top" None None;
                   OnResult "request1" (spy 2); Microtask]
                  (boot plain_win)))
  = [].
Proof.
  refine (proj1 (proj2
    (no_result_no_delivery test_discover
       [OnResult "request1" (spy 1);
        Open "request1" "https://example.com/file" "_top" None None;
        OnResult "request1" (spy 2); Microtask]
       (boot plain_win) eq_refl (or_introl eq_refl) _))).
  intros ref Hin. apply list_elem_of_In in Hin. simpl in Hin.
  destruct Hin as [Hin|[Hin|[Hin|[Hin|[]]]]]; discriminate Hin.
Defined.

(** ** A buffered result and the fragment *)

(** X5. A buffered result shadows the fragment for good.  Once the buffer
    holds a port for [requestId], then after any events a call of
    [onResult(requestId, callback)] queues [callback] with the port that the
    buffer holds at that moment, constructs nothing, and does so whatever
    [discoverRedirectPort] would answer: a result for [requestId] that is
    still in the captured fragment is never discovered any more. *)
Theorem buffered_result_shadows_fragment
    (discover : Window -> string -> string -> option PortBody)
    (requestId : string) (callback : Callback) (ops : list Op) (w : World) :
  is_Some (resultBuffer_ (this w) !! requestId) ->
  exists port,
    resultBuffer_ (this (run discover ops w)) !! requestId = Some port
    /\ forall discover',
         onResult discover' requestId callback (run discover ops w)
         = consumeResult_ port callback
             (with_this
                (set_handlers requestId
                   (handlers_of requestId (this (run discover ops w))
                    ++ [callback]))
                (run discover ops w)).
Proof.
  intros Hb.
  destruct (run_retains discover requestId ops w Hb) as [port Hp].
  exists port. split; [done|]. intros discover'.
  by apply onResult_buffered.
Qed.

Lemma buffered_result_shadows_fragment_witness :
  microtasks (onResult test_discover "request1" (spy 1) popup_first_page)
  = [job_of request1_port (spy 1)].
Proof.
  pose proof (buffered_result_shadows_fragment test_discover "request1"
                (spy 1) [] popup_first_page) as H.
  destruct H as (port & Hport & Hon).
  - exists request1_port. reflexivity.
  - change (run test_discover [] popup_first_page) with popup_first_page
      in Hport, Hon.
    rewrite (Hon test_discover). vm_compute in Hport.
    injection Hport as <-. reflexivity.
Defined.

(** ** Request ids keep apart *)

Section Requests.

Variable discover : Window -> string -> string -> option PortBody.

Lemma step_leaves_request_alone (r : string) (op : Op) (w : World) :
  (forall p, (r, p) ∉ awaiting w) ->
  concerns r op = false ->
  resultBuffer_ (this (step discover w op)) !! r = resultBuffer_ (this w) !! r
  /\ forall p, (r, p) ∉ awaiting (step discover w op).
Proof.
  intros Hw Hop.
  destruct op as [r' cb|r' url target args options|ref| |h]; simpl in *.
  - apply bool_decide_eq_false in Hop. split.
    + rewrite onResult_result_buffer. apply discoverResult_other_entry.
      congruence.
    + intros p. rewrite onResult_awaiting. apply Hw.
  - apply bool_decide_eq_false in Hop. split; [done|].
    intros p Hin. apply elem_of_app in Hin as [Hin|Hin].
    + by apply (Hw p).
    + apply list_elem_of_singleton in Hin. congruence.
  - unfold acceptResult_then.
    destruct (take_awaiting ref (awaiting w)) as [[[r1 p1] rest]|] eqn:Ht;
      [|done].
    pose proof (take_awaiting_elem ref (awaiting w) rest r1 p1 Ht) as Hin.
    split.
    + rewrite consumeResultAll_lookup. simpl. case_decide as Hr; [|done].
      subst r1. by destruct (Hw p1).
    + intros p. rewrite consumeResultAll_awaiting. simpl. intros Hp.
      assert (Hall : Forall (fun e => e ∈ awaiting w) (awaiting w)).
      { by apply Forall_forall. }
      apply (take_awaiting_sublist ref (awaiting w) rest r1 p1 Ht) in Hall.
      rewrite Forall_forall in Hall. by apply (Hw p), Hall.
  - by rewrite run_microtask_this, run_microtask_awaiting.
  - done.
Qed.

End Requests.

(** X6. Request ids do not interfere.  If no opened port is waiting for a
    result under [requestId], then events that do not name [requestId]
    (calls of [onResult] and [open] for other ids, arrivals of results,
    microtasks, changes of the hash) leave the buffer entry and the handler
    list of [requestId] as they were, and still no port waits under
    [requestId] afterwards. *)
Theorem other_requests_leave_a_request_alone
    (discover : Window -> string -> string -> option PortBody)
    (requestId : string) (ops : list Op) (w : World) :
  (forall port, (requestId, port) ∉ awaiting w) ->
  forallb (fun op => negb (concerns requestId op)) ops = true ->
  resultBuffer_ (this (run discover ops w)) !! requestId
  = resultBuffer_ (this w) !! requestId
  /\ handlers_of requestId (this (run discover ops w))
     = handlers_of requestId (this w)
  /\ forall port, (requestId, port) ∉ awaiting (run discover ops w).
Proof.
  revert w. induction ops as [|op ops IH]; intros w Hw Hops; [done|].
  simpl in Hops. apply andb_prop in Hops as [Hop Hops].
  apply negb_true_iff in Hop.
  change (run discover (op :: ops) w)
    with (run discover ops (step discover w op)).
  destruct (step_leaves_request_alone discover requestId op w Hw Hop)
    as [Hb Hw'].
  destruct (IH (step discover w op) Hw' Hops) as (IHb & IHh & IHw).
  split; [by rewrite IHb|]. split; [|done].
  rewrite IHh, step_handlers_of.
  assert (registers requestId op = None) as ->;
    [|destruct (inherited requestId); by rewrite app_nil_r].
  destruct op as [r' cb| | | |]; simpl in *; try done.
  apply bool_decide_eq_false in Hop. by rewrite decide_False.
Qed.

Lemma other_requests_leave_a_request_alone_witness :
  resultBuffer_
    (this (run test_discover
             [OnResult "request1" (spy 1);
              Open "request2" "https://example.com/file" "_blank" None None;
              AcceptResult 0; Microtask]
             (boot redirected_win)))
    !! "request3" = None.
Proof.
  refine (proj1
    (other_requests_leave_a_request_alone test_discover "request3"
       [OnResult "request1" (spy 1);
        Open "request2" "https://example.com/file" "_blank" None None;
        AcceptResult 0; Microtask]
       (boot redirected_win) _ eq_refl)).
  intros port. apply not_elem_of_nil.
Defined.

(** ** Ports go to the callbacks of their request id *)

Section Routing.

Variable discover : Window -> string -> string -> option PortBody.

(** The helper answers with a result for the request id it was asked for. *)
Hypothesis discover_answers_for_id :
  forall win fragment r p,
    discover win fragment r = Some (port_body p) -> request_of p = r.

Lemma discoverResult_request_of (r : string) (p : Port) (w : World) :
  routing_inv w ->
  fst (discoverResult_ discover r w) = Some p ->
  request_of p = r.
Proof.
  intros Hinv Hd.
  destruct (discoverResult_ discover r w) as [res w'] eqn:He. simpl in Hd.
  subst res.
  apply discoverResult_some in He as [[Hb _]|(_ & _ & _ & Hh & _)].
  - apply buffered_cases in Hb as [Hb|[_ ->]]; [|done].
    by apply (route_buffer w Hinv).
  - by apply (discover_answers_for_id (win w) (fragment_ (this w))).
Qed.

Lemma onResult_routing_inv (r : string) (cb : Callback) (w : World) :
  routing_inv w -> routing_inv (onResult discover r cb w).
Proof.
  intros Hinv. split.
  - intros r' p. rewrite onResult_result_buffer. intros Hb.
    apply discoverResult_buffer_cases in Hb as [Hb|[-> Hb]].
    + by apply (route_buffer w Hinv).
    + by apply (discoverResult_request_of r p w).
  - intros r' p. rewrite onResult_awaiting. apply (route_awaiting w Hinv).
  - intros cb' p. rewrite onResult_history_step, onResult_handlers_of.
    intros Hin. apply elem_of_app in Hin as [Hin|Hin].
    + pose proof (route_history w Hinv cb' p Hin) as Hold.
      case_decide; [|done]. apply elem_of_app. by left.
    + destruct (inherited r) eqn:Hi; [by apply elem_of_nil in Hin|].
      destruct (fst (discoverResult_ discover r w)) as [p0|] eqn:Hd.
      * apply list_elem_of_singleton in Hin as [= -> ->].
        rewrite (discoverResult_request_of r p0 w Hinv Hd).
        rewrite decide_True by done. apply elem_of_app. right.
        apply list_elem_of_here.
      * by apply elem_of_nil in Hin.
Qed.

Lemma acceptResult_then_routing_inv (ref : nat) (w : World) :
  routing_inv w -> routing_inv (acceptResult_then ref w).
Proof.
  intros Hinv. unfold acceptResult_then.
  destruct (take_awaiting ref (awaiting w)) as [[[r p] rest]|] eqn:Ht; [|done].
  pose proof (take_awaiting_elem ref (awaiting w) rest r p Ht) as Hin.
  pose proof (route_awaiting w Hinv r p Hin) as Hp.
  split.
  - intros r' p'. rewrite consumeResultAll_lookup. simpl.
    case_decide as Hr; [|apply (route_buffer w Hinv)].
    subst r'. destruct (inherited r); [done|]. by intros [= <-].
  - intros r' p'. rewrite consumeResultAll_awaiting. simpl. intros Hr.
    apply (route_awaiting w Hinv).
    assert (Hall : Forall (fun e => e ∈ awaiting w) (awaiting w)).
    { by apply Forall_forall. }
    apply (take_awaiting_sublist ref (awaiting w) rest r p Ht) in Hall.
    rewrite Forall_forall in Hall. by apply Hall.
  - intros cb p'. rewrite consumeResultAll_history.
    intros Hh.
    assert (Hsame : forall X,
      handlers_of X (this (consumeResultAll_ r p (with_awaiting rest w)))
      = handlers_of X (this w)).
    { intros X. unfold handlers_of. by rewrite consumeResultAll_handlers. }
    rewrite Hsame. apply elem_of_app in Hh as [Hh|Hh].
    + by apply (route_history w Hinv cb p').
    + apply elem_of_map_inv in Hh as (h & [= -> ->] & Hh).
      by rewrite Hp.
Qed.

Lemma step_routing_inv (op : Op) (w : World) :
  routing_inv w -> routing_inv (step discover w op).
Proof.
  intros Hinv. destruct op as [r cb|r url target args options|ref| |h]; simpl.
  - by apply onResult_routing_inv.
  - split.
    + apply (route_buffer w Hinv).
    + intros r' p. simpl. intros Hin.
      apply elem_of_app in Hin as [Hin|Hin].
      * by apply (route_awaiting w Hinv r').
      * by apply list_elem_of_singleton in Hin as [= -> ->].
    + apply (route_history w Hinv).
  - by apply acceptResult_then_routing_inv.
  - split.
    + rewrite run_microtask_this. apply (route_buffer w Hinv).
    + rewrite run_microtask_awaiting. apply (route_awaiting w Hinv).
    + rewrite run_microtask_history, run_microtask_this.
      apply (route_history w Hinv).
  - split; [apply (route_buffer w Hinv)|apply (route_awaiting w Hinv)
           |apply (route_history w Hinv)].
Qed.

Lemma run_routing_inv (ops : list Op) (w : World) :
  routing_inv w -> routing_inv (run discover ops w).
Proof.
  revert w. induction ops as [|op ops IH]; intros w Hinv; simpl; [done|].
  by apply IH, step_routing_inv.
Qed.

End Routing.

Lemma boot_routing_inv (window : Window) : routing_inv (boot window).
Proof.
  split.
  - intros r p Hb. simpl in Hb. by rewrite table_lookup_empty in Hb.
  - intros r p Hin. by apply elem_of_nil in Hin.
  - intros cb p Hin. by apply elem_of_nil in Hin.
Qed.

(** X7. Every port goes to the callbacks of its own request id.  Provided
    [discoverRedirectPort] answers with a result for the id it was asked
    for, on any page that events lead to from a fresh manager: a callback
    that was called, or is queued to be called, with a port was passed to
    [onResult] for the request id of that port (the [requestId] given to
    [open], or the one of the redirect result), and the buffer holds every
    port under its own request id. *)
Theorem every_port_goes_to_its_own_request
    (discover : Window -> string -> string -> option PortBody)
    (window : Window) (ops : list Op) :
  (forall win fragment r p,
      discover win fragment r = Some (port_body p) -> request_of p = r) ->
  (forall callback port,
      (callback, port) ∈ history (run discover ops (boot window)) ->
      callback ∈ registered (request_of port) ops)
  /\ (forall requestId port,
        resultBuffer_ (this (run discover ops (boot window))) !! requestId
        = Some port ->
        request_of port = requestId).
Proof.
  intros Hd.
  assert (Hinv : routing_inv (run discover ops (boot window))).
  { apply run_routing_inv; [done|]. apply boot_routing_inv. }
  split.
  - intros callback port Hin.
    pose proof (route_history _ Hinv callback port Hin) as Hh.
    rewrite run_handlers_of, handlers_of_boot in Hh. simpl in Hh.
    destruct (inherited (request_of port)); [|done].
    by apply elem_of_nil in Hh.
  - apply (route_buffer _ Hinv).
Qed.

(** The helper modelled from the specification answers for the id asked. *)
Lemma discoverRedirectPort_answers_for_id
    (parseResponse : string -> option RedirectResponse)
    (win : Window) (fragment r : string) (p : Port) :
  discoverRedirectPort parseResponse win fragment r = Some (port_body p) ->
  request_of p = r.
Proof.
  intros H. apply discoverRedirectPort_tag in H as (response & Hb & _ & Hr).
  unfold request_of. by rewrite Hb.
Qed.

Lemma every_port_goes_to_its_own_request_witness :
  spy 1 ∈ registered (request_of redirect_port)
            [OnResult "request1" (spy 1); OnResult "request2" (spy 9);
             Microtask].
Proof.
  apply (proj1
    (every_port_goes_to_its_own_request test_discover redirected_win
       [OnResult "request1" (spy 1); OnResult "request2" (spy 9); Microtask]
       (discoverRedirectPort_answers_for_id test_parseResponse))
    (spy 1) redirect_port).
  vm_compute. apply list_elem_of_here.
Defined.

(** ** Deliveries are asynchronous *)

Lemma step_defers
    (discover : Window -> string -> string -> option PortBody)
    (op : Op) (w : World) :
  op <> Microtask ->
  calls (step discover w op) = calls w
  /\ microtasks w `prefix_of` microtasks (step discover w op).
Proof.
  intros Hop. destruct op as [r cb|r url target args options|ref| |h]; simpl.
  - rewrite onResult_calls, onResult_microtasks.
    split; [done|]. by apply prefix_app_r.
  - done.
  - unfold acceptResult_then.
    destruct (take_awaiting ref (awaiting w)) as [[[r p] rest]|]; [|done].
    rewrite consumeResultAll_calls, consumeResultAll_microtasks.
    split; [done|]. by apply prefix_app_r.
  - done.
  - done.
Qed.

(** X8. No method of the manager calls a callback before it returns, and
    none takes a job back.  Through any events among which the event loop
    runs no microtask (registrations, with or without an available result,
    calls of [open], arrivals of results, changes of the hash), the list of
    calls made stays as it was, and the microtask queue only grows at its
    end. *)
Theorem deliveries_wait_for_the_event_loop
    (discover : Window -> string -> string -> option PortBody)
    (ops : list Op) (w : World) :
  Microtask ∉ ops ->
  calls (run discover ops w) = calls w
  /\ microtasks w `prefix_of` microtasks (run discover ops w).
Proof.
  revert w. induction ops as [|op ops IH]; intros w Hops; [done|].
  apply not_elem_of_cons in Hops as [Hop Hops].
  change (run discover (op :: ops) w)
    with (run discover ops (step discover w op)).
  destruct (step_defers discover op w) as [Hc Hq]; [congruence|].
  destruct (IH (step discover w op) Hops) as [IHc IHq].
  split; [by rewrite IHc|]. by etrans.
Qed.

Lemma deliveries_wait_for_the_event_loop_witness :
  calls (run test_discover
           [OnResult "request1" (spy 1); SetHash EmptyString;
            OnResult "request1" (spy 2)]
           (boot redirected_win))
  = [].
Proof.
  refine (proj1
    (deliveries_wait_for_the_event_loop test_discover
       [OnResult "request1" (spy 1); SetHash EmptyString;
        OnResult "request1" (spy 2)]
       (boot redirected_win) _)).
  intros Hin. apply list_elem_of_In in Hin. simpl in Hin.
  destruct Hin as [Hin|[Hin|[Hin|[]]]]; discriminate Hin.
Defined.

(** * Request ids that name members of [Object.prototype]

    The tables are declared as maps from any string to an array of callbacks
    (line 53) and to a port (line 59), and [onResult] and [open] take any
    string as [requestId] (lines 94 and 139).  Under a request id such as
    'constructor' the reads of lines 143, 183 and 212 find the member that
    the table inherits, and the manager fails as follows. *)

(** C1 (defect of the code).  Under the request id 'constructor' a callback
    registered before the result arrives and one registered after it are
    never called: both calls of [onResult] throw at [handlers.push], the
    arrival throws at [handlers.forEach], nothing is registered, buffered or
    queued, and draining the queue calls nothing. *)
Theorem callbacks_under_constructor_are_never_called :
  calls (drain (run test_discover
                  [OnResult "constructor" (spy 1);
                   Open "constructor" "https://example.com/file" "_blank"
                     None None;
                   AcceptResult 0;
                   OnResult "constructor" (spy 2)]
                  (boot plain_win)))
  = []
  /\ raised (run test_discover
               [OnResult "constructor" (spy 1);
                Open "constructor" "https://example.com/file" "_blank"
                  None None;
                AcceptResult 0;
                OnResult "constructor" (spy 2)]
               (boot plain_win))
     = ["TypeError: handlers.push is not a function";
        "TypeError: handlers.forEach is not a function";
        "TypeError: handlers.push is not a function"]
  /\ this (run test_discover
             [OnResult "constructor" (spy 1);
              Open "constructor" "https://example.com/file" "_blank"
                None None;
              AcceptResult 0;
              OnResult "constructor" (spy 2)]
             (boot plain_win))
     = constructor plain_win.
Proof. split; [reflexivity|]. split; reflexivity. Qed.

(** C6 (defect of the code).  A page comes back from a redirect with the
    result of the activity 'constructor' in its fragment, so that a result
    for this request id is discoverable there.  [onResult('constructor',
    callback)] throws at [handlers.push] before it looks for the result: it
    queues nothing, and the callback is not called, neither during the call
    nor after it. *)
Theorem available_result_under_constructor_is_not_delivered :
  discoverRedirectPort constructor_parseResponse constructor_win
    (fragment_ (this (boot constructor_win))) "constructor"
  = Some (ActivityWindowRedirectPort constructor_response)
  /\ onResult (discoverRedirectPort constructor_parseResponse) "constructor"
       (spy 1) (boot constructor_win)
     = raise "TypeError: handlers.push is not a function"
         (boot constructor_win)
  /\ microtasks (onResult (discoverRedirectPort constructor_parseResponse)
                   "constructor" (spy 1) (boot constructor_win))
     = []
  /\ calls (drain (onResult (discoverRedirectPort constructor_parseResponse)
                     "constructor" (spy 1) (boot constructor_win)))
     = [].
Proof. split; [reflexivity|]. split; [reflexivity|]. split; reflexivity. Qed.

(** C7 (defect of the code).  The page opens an activity under the request
    id 'constructor' and the result of its port arrives.
    [consumeResultAll_] throws at [handlers.forEach], before the assignment
    of line 219: the port is not stored, the manager is as the constructor
    left it, and a later read of the buffer under 'constructor' finds the
    inherited member, not the port. *)
Theorem result_under_constructor_is_not_buffered :
  this (run test_discover
          [Open "constructor" "https://example.com/file" "_blank" None None;
           AcceptResult 0]
          (boot plain_win))
  = constructor plain_win
  /\ raised (run test_discover
               [Open "constructor" "https://example.com/file" "_blank"
                  None None;
                AcceptResult 0]
               (boot plain_win))
     = ["TypeError: handlers.forEach is not a function"]
  /\ awaiting (run test_discover
                 [Open "constructor" "https://example.com/file" "_blank"
                    None None;
                  AcceptResult 0]
                 (boot plain_win))
     = []
  /\ fst (discoverResult_ test_discover "constructor"
            (run test_discover
               [Open "constructor" "https://example.com/file" "_blank"
                  None None;
                AcceptResult 0]
               (boot plain_win)))
     = Some (inherited_member "constructor")
  /\ inherited_member "constructor" <> constructor_port.
Proof.
  split; [reflexivity|]. split; [reflexivity|]. split; [reflexivity|].
  split; [reflexivity|]. discriminate.
Qed.
